(** * bskyDiscordFeed: the polling core of [app/main.py]

  A shallow embedding of the rate limiter, the retry wrappers, the
  history loader and the sweep of [check_subscriptions_updates], with
  the properties of the design document checked against them.

  Conventions.  An aware [datetime] is the instant it denotes, counted
  in microseconds since the epoch (a [Z]); a [timedelta] is a signed
  number of microseconds.  Comparison and subtraction of aware
  datetimes only depend on the instant, and [isoformat] followed by
  [fromisoformat] gives the same instant back, so the history maps a
  handle directly to an instant.  [await] points are sequential here:
  the program runs one sweep at a time on one event loop. *)

From stdpp Require Import base numbers list strings gmap sorting pretty.
From Stdlib Require Import ZArith Lia.

Local Open Scope Z_scope.

(** ** Datetime arithmetic *)

Module Datetime.

(** [timedelta(seconds=s)] and [timedelta(minutes=m)]. *)
Definition timedelta_seconds (s : Z) : Z := s * 1000000.
Definition timedelta_minutes (m : Z) : Z := m * 60000000.

(** The [.seconds] attribute of a [timedelta]: Python normalises a
    delta to days, seconds and microseconds with
    [0 <= seconds < 86400], the days carrying the sign. *)
Definition seconds (d : Z) : Z := (d `mod` 86400000000) `div` 1000000.

End Datetime.

(** ** RateLimiter (main.py 76-90) *)

Module RateLimiter.

Record t := mk {
  calls_per_minute : Z;
  calls : list Z
}.

(** [__init__]: the module instantiates [RateLimiter()] with the
    default budget. *)
Definition init (budget : Z) : t :=
  {| calls_per_minute := budget; calls := [] |}.

Definition default_budget : Z := 30.
Definition rate_limiter : t := init default_budget.

(** [[t for t in self.calls if now - t < timedelta(minutes=1)]] *)
Definition in_window (now : Z) (cs : list Z) : list Z :=
  filter (λ c, now - c < Datetime.timedelta_minutes 1) cs.

(** [min(self.calls)]; Python raises [ValueError] on the empty list. *)
Definition min_call (cs : list Z) : option Z :=
  match cs with
  | [] => None
  | c :: cs' => Some (foldr Z.min c cs')
  end.

(** What a call of [acquire] did: it returned, after sleeping
    [wait_time] seconds when the budget was reached, or it raised. *)
Inductive outcome :=
| Acquired (slept : option Z)
| RaisedValueError.

Definition acquire (now : Z) (rl : t) : t * outcome :=
  let kept := in_window now (calls rl) in
  if decide (calls_per_minute rl ≤ Z.of_nat (length kept)) then
    match min_call kept with
    | None =>
        ({| calls_per_minute := calls_per_minute rl; calls := kept |},
         RaisedValueError)
    | Some oldest =>
        let wait_time := 60 - Datetime.seconds (now - oldest) in
        ({| calls_per_minute := calls_per_minute rl; calls := kept ++ [now] |},
         Acquired (Some wait_time))
    end
  else
    ({| calls_per_minute := calls_per_minute rl; calls := kept ++ [now] |},
     Acquired None).

(** [asyncio.sleep(d)] returns at once for [d <= 0]; the caller is
    resumed no earlier than this instant. *)
Definition admission_time (now : Z) (slept : option Z) : Z :=
  match slept with
  | None => now
  | Some w => now + Datetime.timedelta_seconds (Z.max 0 w)
  end.

(** A run of the limiter: [acquire] at each clock reading in turn. *)
Definition acquire_all (clock : list Z) (rl : t) : t :=
  foldl (λ r now, (acquire now r).1) rl clock.

End RateLimiter.

(** ** The retry decorator of tenacity

    [@retry(stop=stop_after_attempt(k), wait=w)] calls the wrapped
    function; when the call raises and fewer than [k] attempts were made
    it sleeps [w attempt_number] seconds and calls again; when the
    [k]-th attempt raises it raises [RetryError].  A normal return, of
    any value, ends the loop. *)

Module Tenacity.

(** [wait_exponential(multiplier, min, max)] at attempt [n >= 1]:
    [max(max(0, min), min(multiplier * 2 ** (n - 1), max))]. *)
Definition wait_exponential (multiplier min_wait max_wait : Z) (attempt_number : nat) : Z :=
  Z.max (Z.max 0 min_wait)
        (Z.min (multiplier * 2 ^ (Z.of_nat attempt_number - 1)) max_wait).

(** What one decorated call did: its result ([None] for [RetryError]),
    how many times the body ran, and the sleeps between the runs. *)
Record run (A : Type) := mk_run {
  result : option A;
  attempts : nat;
  sleeps : list Z
}.
Arguments mk_run {A} _ _ _.
Arguments result {A} _.
Arguments attempts {A} _.
Arguments sleeps {A} _.

(** The body is given the attempt number and answers [None] when that
    attempt raises. *)
Fixpoint retrying {A} (wait : nat → Z) (remaining attempt_number : nat)
    (body : nat → option A) : run A :=
  match remaining with
  | O => mk_run None 0 []
  | S remaining' =>
      match body attempt_number with
      | Some v => mk_run (Some v) 1 []
      | None =>
          match remaining' with
          | O => mk_run None 1 []
          | S _ =>
              let r := retrying wait remaining' (S attempt_number) body in
              mk_run (result r) (S (attempts r)) (wait attempt_number :: sleeps r)
          end
      end
  end.

Definition retry {A} (stop_after_attempt : nat) (wait : nat → Z)
    (body : nat → option A) : run A :=
  retrying wait stop_after_attempt 1 body.

End Tenacity.

(** ** Data of the sweep *)

Record Post := mk_post {
  uri : string;
  indexed_at : Z
}.

(** A remote call returns or raises. *)
Inductive remote (A : Type) :=
| Returned (a : A)
| Raised.
Arguments Returned {A} _.
Arguments Raised {A}.

(** The configuration read from the environment variables. *)
Record Config := mk_config {
  POST_AGE_MINUTES : Z
}.

Definition POST_AGE_THRESHOLD (cfg : Config) : Z :=
  Datetime.timedelta_minutes (POST_AGE_MINUTES cfg).

(** What the outside world answers during one sweep.
    - [channel]: whether [discord_client.get_channel] finds the channel;
    - [get_list n]: the answer of [bluesky.app.bsky.graph.get_list] to
      the [n]-th attempt, the items given by the handle of their
      subject, [None] for a subject without the attribute (a falsy
      response is the empty list);
    - [get_author_feed handle n]: the answer of
      [bluesky.get_author_feed] for [handle] at the [n]-th attempt, the
      feed in the order received (a falsy response is the empty list);
    - [send post]: whether [create_post_embed] and [channel.send]
      return ([false]: one of them raises);
    - [current_time]: the clock read at line 253. *)
Record Env := mk_env {
  channel : bool;
  get_list : nat → remote (list (option string));
  get_author_feed : string → nat → remote (list Post);
  send : Post → bool;
  current_time : Z
}.

(** What a sweep does that can be observed: posts sent, the send that
    raised, the writes of the history file, the error and warning log
    lines of the sweep and the log lines of [get_list_members]. *)
Inductive event :=
| Sent (handle : string) (post : Post)
| SendFailed (handle : string) (post : Post)
| SavedHistory (history : gmap string Z)
| LogUserError (handle : string)
| LogUpdateError
| LogNoChannel
| LogNoHandles
| LogListError
| LogNoMembers
| LogFoundMembers (n : nat).

(** ** The two decorated remote calls (main.py 120-155)

    Both are decorated with
    [@retry(stop=stop_after_attempt(3),
            wait=wait_exponential(multiplier=1, min=4, max=10))].
    [rate_limiter.acquire()] opens both bodies; the module's limiter has
    a positive budget and then never raises ([acquire_never_raises]
    below), so it delays the bodies and does not change their result. *)

Definition retry_wait : nat → Z := Tenacity.wait_exponential 1 4 10.
Definition retry_stop : nat := 3%nat.

(** The body of [get_list_members]: the remote call sits inside
    [try ... except Exception: ... return []]. *)
Definition get_list_members_body (response : remote (list (option string))) : list string :=
  match response with
  | Raised => []
  | Returned items => omap id items
  end.

Definition get_list_members (env : Env) : Tenacity.run (list string) :=
  Tenacity.retry retry_stop retry_wait
    (λ n, Some (get_list_members_body (get_list env n))).

(** The lines the body of [get_list_members] logs: the error of line
    145 when the remote call raises, the warning of line 132 for a
    falsy response or an empty list of items, and otherwise the count
    of line 141. *)
Definition get_list_members_log (response : remote (list (option string))) : list event :=
  match response with
  | Raised => [LogListError]
  | Returned [] => [LogNoMembers]
  | Returned items => [LogFoundMembers (length (omap id items))]
  end.

(** The lines logged by a call of the decorated [get_list_members]:
    those of each attempt it made. *)
Definition get_list_members_trace (env : Env) : list event :=
  flat_map (λ n, get_list_members_log (get_list env n))
           (seq 1 (Tenacity.attempts (get_list_members env))).

(** The body of [fetch_posts] lets the exception of the remote call
    through. *)
Definition fetch_posts (env : Env) (handle : string) : Tenacity.run (list Post) :=
  Tenacity.retry retry_stop retry_wait
    (λ n, match get_author_feed env handle n with
          | Returned feed => Some feed
          | Raised => None
          end).

(** ** load_history (main.py 94-104) *)

Inductive history_file :=
| Missing
| Unreadable
| Content (text : string).

(** [json_loads text] is [json.loads] on the text of the file, read as
    the map from handle to instant that [save_history] wrote; [None]
    when it raises. *)
Definition load_history (json_loads : string → option (gmap string Z))
    (file : history_file) : gmap string Z :=
  match file with
  | Missing => ∅
  | Unreadable => ∅
  | Content text =>
      match json_loads text with
      | Some history => history
      | None => ∅
      end
  end.

(** ** check_subscriptions_updates (main.py 237-291) *)

(** Line 269: [post_age := current_time - post_time > POST_AGE_THRESHOLD];
    the walrus binds the whole comparison. *)
Definition too_old (cfg : Config) (env : Env) (post_time : Z) : bool :=
  bool_decide (POST_AGE_THRESHOLD cfg < current_time env - post_time).

(** Line 272: [newest_time and post_time <= newest_time]. *)
Definition already_seen (newest_time : option Z) (post_time : Z) : bool :=
  match newest_time with
  | None => false
  | Some newest => bool_decide (post_time ≤ newest)
  end.

(** Lines 275-276. *)
Definition bump (newest_time : option Z) (post_time : Z) : option Z :=
  match newest_time with
  | None => Some post_time
  | Some newest => if bool_decide (newest < post_time) then Some post_time else Some newest
  end.

(** The loop of lines 266-281 over the posts in the order it visits
    them; it completes with the final [newest_time] or is left by the
    exception of a send. *)
Inductive loop_result :=
| Completed (newest_time : option Z) (trace : list event)
| Aborted (trace : list event).

Definition loop_trace (r : loop_result) : list event :=
  match r with
  | Completed _ trace => trace
  | Aborted trace => trace
  end.

Definition after_send (handle : string) (post : Post) (r : loop_result) : loop_result :=
  match r with
  | Completed newest_time trace => Completed newest_time (Sent handle post :: trace)
  | Aborted trace => Aborted (Sent handle post :: trace)
  end.

Fixpoint post_loop (cfg : Config) (env : Env) (handle : string)
    (posts : list Post) (newest_time : option Z) : loop_result :=
  match posts with
  | [] => Completed newest_time []
  | post :: rest =>
      let post_time := indexed_at post in
      if too_old cfg env post_time then post_loop cfg env handle rest newest_time
      else if already_seen newest_time post_time then post_loop cfg env handle rest newest_time
      else
        let newest_time' := bump newest_time post_time in
        if send env post
        then after_send handle post (post_loop cfg env handle rest newest_time')
        else Aborted [SendFailed handle post]
  end.

(** The body of the [for handle in handles] loop, lines 256-288. *)
Definition process_handle (cfg : Config) (env : Env)
    (history : gmap string Z) (handle : string) : gmap string Z * list event :=
  match Tenacity.result (fetch_posts env handle) with
  | None => (history, [LogUserError handle])
  | Some [] => (history, [])
  | Some feed =>
      match post_loop cfg env handle (reverse feed) (history !! handle) with
      | Completed (Some newest_time) trace =>
          let history' := <[handle := newest_time]> history in
          (history', trace ++ [SavedHistory history'])
      | Completed None trace => (history, trace)
      | Aborted trace => (history, trace ++ [LogUserError handle])
      end
  end.

Fixpoint handle_loop (cfg : Config) (env : Env) (handles : list string)
    (history : gmap string Z) : gmap string Z * list event :=
  match handles with
  | [] => (history, [])
  | handle :: rest =>
      let '(history1, trace1) := process_handle cfg env history handle in
      let '(history2, trace2) := handle_loop cfg env rest history1 in
      (history2, trace1 ++ trace2)
  end.

Definition check_subscriptions_updates (cfg : Config) (env : Env)
    (history : gmap string Z) : gmap string Z * list event :=
  if channel env then
    match Tenacity.result (get_list_members env) with
    | None => (history, get_list_members_trace env ++ [LogUpdateError])
    | Some [] => (history, get_list_members_trace env ++ [LogNoHandles])
    | Some handles =>
        let '(history', trace) := handle_loop cfg env handles history in
        (history', get_list_members_trace env ++ trace)
    end
  else (history, [LogNoChannel]).

(** The task loop: one sweep after the other on the same history. *)
Fixpoint run_sweeps (cfg : Config) (envs : list Env)
    (history : gmap string Z) : gmap string Z :=
  match envs with
  | [] => history
  | env :: envs' =>
      run_sweeps cfg envs' (check_subscriptions_updates cfg env history).1
  end.

(** The posts a trace sent, in the order of sending, and the sends
    attempted (the sent ones and the one that raised). *)
Definition sent_posts (trace : list event) : list Post :=
  omap (λ e, match e with Sent _ post => Some post | _ => None end) trace.

Definition attempted_posts (trace : list event) : list Post :=
  omap (λ e, match e with
             | Sent _ post | SendFailed _ post => Some post
             | _ => None
             end) trace.

(** ** Vocabulary of the properties *)

(** The order on stored watermarks: an entry never disappears and its
    instant never moves back. *)
Definition watermark_le (before after : option Z) : Prop :=
  match before, after with
  | None, _ => True
  | Some w, Some w' => w ≤ w'
  | Some _, None => False
  end.

(** [older p q]: [p] was indexed strictly before [q].  A feed is
    newest-first when each post is followed by a strictly older one. *)
Definition older (p q : Post) : Prop := indexed_at p < indexed_at q.
Definition newest_first (feed : list Post) : Prop := Sorted (flip older) feed.

(** The Dedup/Age filter in the words of the design document (4.3):
    (a) strictly newer than the stored watermark, every post when there
    is none, and (b) [now - indexed_at <= max_age]. *)
Definition eligible (cfg : Config) (env : Env) (watermark : option Z) (p : Post) : Prop :=
  match watermark with
  | None => True
  | Some w => w < indexed_at p
  end ∧ current_time env - indexed_at p ≤ POST_AGE_THRESHOLD cfg.

#[global] Instance eligible_dec cfg env watermark p : Decision (eligible cfg env watermark p).
Proof. unfold eligible. destruct watermark; apply _. Defined.

#[global] Instance older_trans : Transitive older.
Proof. unfold older. intros p q r. lia. Qed.

(** The three ways [load_history] ends in its fallback: no file, a
    file that cannot be opened or read, a text that is not JSON. *)
Definition load_fails (json_loads : string → option (gmap string Z))
    (file : history_file) : Prop :=
  match file with
  | Missing | Unreadable => True
  | Content text => json_loads text = None
  end.

(** ** Sample inputs

    The accounts and posts of the scenarios of the design document
    (section 8): instants are given in minutes, 10:00 being minute 600
    of the day. *)

Definition at_minute (m : Z) : Z := Datetime.timedelta_minutes m.

Definition sample_cfg : Config := mk_config 60.

Definition P1 : Post := mk_post "at://did:plc:a/app.bsky.feed.post/1" (at_minute 600).
Definition P2 : Post := mk_post "at://did:plc:a/app.bsky.feed.post/2" (at_minute 605).
Definition P3 : Post := mk_post "at://did:plc:a/app.bsky.feed.post/3" (at_minute 610).

(** A post indexed in the same instant as [P2]. *)
Definition P2b : Post := mk_post "at://did:plc:a/app.bsky.feed.post/2b" (at_minute 605).

(** A list with three accounts, every remote call answering the same
    at each attempt. *)
Definition sample_env (feed_of : string → remote (list Post))
    (send : Post → bool) (now : Z) : Env :=
  mk_env true
    (λ _, Returned [Some "alice"; Some "bob"; Some "carol"])
    (λ handle _, feed_of handle) send now.

Definition all_sent : Post → bool := λ _, true.

(** The feed of bob cannot be fetched; alice has [P1], carol [P2]. *)
Definition isolation_env : Env :=
  sample_env (λ h, if decide (h = "bob") then Raised
                   else if decide (h = "alice") then Returned [P1]
                   else Returned [P2])
             all_sent (at_minute 606).

(** A send that raises on [P2] only. *)
Definition fails_on_P2 : Post → bool :=
  λ p, bool_decide (uri p ≠ uri P2).

(** [get_list] down at the first attempt and back at the second. *)
Definition flaky_list_env : Env :=
  mk_env true
    (λ n, if decide (n = 1%nat) then Raised else Returned [Some "alice"])
    (λ _ n, if decide (n = 1%nat) then Raised else Returned [P1])
    all_sent (at_minute 606).

(** ** Text helpers *)

Module Str.

Definition slash : Ascii.ascii := Ascii.Ascii true true true true false true false false.

(** [s.startswith(p)] *)
Fixpoint startswith (p s : string) : bool :=
  match p, s with
  | EmptyString, _ => true
  | String _ _, EmptyString => false
  | String a p', String b s' => Ascii.eqb a b && startswith p' s'
  end.

(** [s.split('/')]: the pieces between the slashes, empty pieces
    included; one piece, the string itself, when there is no slash. *)
Fixpoint split_slash (s : string) : list string :=
  match s with
  | EmptyString => [EmptyString]
  | String c rest =>
      if Ascii.eqb c slash then EmptyString :: split_slash rest
      else match split_slash rest with
           | [] => [String c EmptyString]
           | part :: parts => String c part :: parts
           end
  end.

(** ['/' in s] *)
Fixpoint has_slash (s : string) : bool :=
  match s with
  | EmptyString => false
  | String c rest => Ascii.eqb c slash || has_slash rest
  end.

(** ['/'.join(parts)] *)
Definition join_slash (parts : list string) : string := String.concat "/" parts.

End Str.

(** ** convert_web_url_to_at_uri (main.py 35-55)

    The function is given here the [path] that [urlparse] extracts from
    the URL.  [at_uri_of_path] is the body of the [try]: [None] stands
    for the [ValueError] it raises. *)

Definition at_uri_of_path (path : string) : option string :=
  if negb (Str.startswith "/profile/" path) then None
  else
    match Str.split_slash path with
    | [_; _; did; part3; list_id] =>
        if negb (String.eqb part3 "lists") then None
        else Some ("at://" +:+ did +:+ "/app.bsky.graph.list/" +:+ list_id)
    | _ => None
    end.

(** How a start-up function ends: with a value, with [sys.exit], or
    with a [NameError] that nothing catches. *)
Inductive startup (A : Type) :=
| Value (a : A)
| SysExit (status : Z)
| NameError.
Arguments Value {A} _.
Arguments SysExit {A} _.
Arguments NameError {A}.

(** The [except] clause calls [logger.error] and then [sys.exit(1)];
    [logger_bound] tells whether the global [logger] exists when the
    function runs. *)
Definition convert_web_url_to_at_uri (logger_bound : bool) (path : string) : startup string :=
  match at_uri_of_path path with
  | Some at_uri => Value at_uri
  | None => if logger_bound then SysExit 1 else NameError
  end.

(** The module calls the function at line 60 and binds [logger] at
    line 70. *)
Definition BSKY_LIST_URI (path : string) : startup string :=
  convert_web_url_to_at_uri false path.

(** ** The Discord embed of a post (main.py 115-206) *)

Record Author := mk_author {
  author_handle : string;
  author_did : string;
  display_name : option string
}.

(** An image of a record's embed as [process_images] meets it: without
    an [image] attribute, with a blob that has its [ref.link], or with
    a blob on which [construct_image_url] raises (no [ref], no
    [link]). *)
Inductive image_view :=
| NoImage
| Blob (link : string)
| BrokenBlob.

(** A feed item as the embed code reads it: the post, its author, its
    text, and the images of its record's embed ([None]: no embed, or an
    embed without [images]). *)
Record FeedViewPost := mk_view {
  view_post : Post;
  author : Author;
  text : string;
  embed_images : option (list image_view)
}.

Record Field := mk_field {
  field_name : string;
  field_value : string;
  inline : bool
}.

Record Embed := mk_embed {
  description : string;
  timestamp : Z;
  url : string;
  author_name : string;
  author_url : string;
  image : option string;
  fields : list Field
}.

Definition set_image (image_url : string) (embed : Embed) : Embed :=
  mk_embed (description embed) (timestamp embed) (url embed)
           (author_name embed) (author_url embed) (Some image_url) (fields embed).

Definition add_field (name value : string) (inl : bool) (embed : Embed) : Embed :=
  mk_embed (description embed) (timestamp embed) (url embed)
           (author_name embed) (author_url embed) (image embed)
           (fields embed ++ [mk_field name value inl]).

Definition construct_image_url (link did : string) : string :=
  "https://cdn.bsky.app/img/feed_fullsize/plain/" +:+ did +:+ "/" +:+ link +:+ "@jpeg".

(** The loop of [process_images] from index [i] on.  It runs inside
    the [try] of lines 159-177: it ends normally, or it is left by the
    exception of an image, with the embed as the images before that one
    made it. *)
Inductive images_result :=
| ImagesDone (embed : Embed)
| ImagesRaised (embed : Embed).

Definition result_embed (r : images_result) : Embed :=
  match r with
  | ImagesDone embed => embed
  | ImagesRaised embed => embed
  end.

Fixpoint images_loop (did : string) (i : nat) (images : list image_view)
    (embed : Embed) : images_result :=
  match images with
  | [] => ImagesDone embed
  | NoImage :: rest => images_loop did (S i) rest embed
  | BrokenBlob :: _ => ImagesRaised embed
  | Blob link :: rest =>
      let image_url := construct_image_url link did in
      images_loop did (S i) rest
        (if (i =? 0)%nat then set_image image_url embed
         else add_field ("Additional Image " +:+ pretty (i + 1)%nat)
                        ("[View Image](" +:+ image_url +:+ ")") true embed)
  end.

(** [process_images]: the embed it leaves, and whether its [except]
    clause logged an error. *)
Definition process_images (post : FeedViewPost) (embed : Embed) : Embed * bool :=
  match embed_images post with
  | None => (embed, false)
  | Some images =>
      match images_loop (author_did (author post)) 0 images embed with
      | ImagesDone embed' => (embed', false)
      | ImagesRaised embed' => (embed', true)
      end
  end.

(** The images the loop gets through: those before the first one that
    raises; and the links of the blobs among some images. *)
Fixpoint before_broken (images : list image_view) : list image_view :=
  match images with
  | [] => []
  | BrokenBlob :: _ => []
  | img :: rest => img :: before_broken rest
  end.

Definition blob_links (images : list image_view) : list string :=
  omap (λ img, match img with Blob link => Some link | _ => None end) images.

(** [display_name or handle] *)
Definition name_or_handle (a : Author) : string :=
  match display_name a with
  | None => author_handle a
  | Some name => if String.eqb name "" then author_handle a else name
  end.

Definition post_url_of (post : FeedViewPost) : string :=
  "https://bsky.app/profile/" +:+ author_handle (author post) +:+ "/post/"
    +:+ default "" (last (Str.split_slash (uri (view_post post)))).

Definition create_post_embed (post : FeedViewPost) (post_time : Z) : Embed :=
  let post_url := post_url_of post in
  let embed :=
    mk_embed (text post) post_time post_url
             (name_or_handle (author post))
             ("https://bsky.app/profile/" +:+ author_handle (author post))
             None [] in
  add_field "View on BlueSky" ("[Click here](" +:+ post_url +:+ ")") false
            (process_images post embed).1.

(** The field that [process_images] adds for the image at a position
    after the first. *)
Definition additional_field (did : string) (position : nat) (link : string) : Field :=
  mk_field ("Additional Image " +:+ pretty (position + 1)%nat)
           ("[View Image](" +:+ construct_image_url link did +:+ ")") true.

(** ** save_history (main.py 106-113)

    A write that succeeds leaves [json.dumps(history)] in the file; the
    [except] of the function keeps a failure inside. *)

Definition save_history (json_dumps : gmap string Z → string)
    (history : gmap string Z) : history_file :=
  Content (json_dumps history).

(** The file after the writes of a trace, all of them succeeding. *)
Definition file_after (json_dumps : gmap string Z → string)
    (trace : list event) (file : history_file) : history_file :=
  foldl (λ f e, match e with
                | SavedHistory history => save_history json_dumps history
                | _ => f
                end) file trace.

(** What each call of a run of the limiter did, in turn. *)
Fixpoint acquire_outcomes (clock : list Z) (rl : RateLimiter.t) : list RateLimiter.outcome :=
  match clock with
  | [] => []
  | now :: clock' =>
      (RateLimiter.acquire now rl).2
        :: acquire_outcomes clock' (RateLimiter.acquire now rl).1
  end.

(** ** Facts about the window *)

Section window_facts.
Import RateLimiter.

Lemma in_window_elem now cs c :
  c ∈ in_window now cs ↔ c ∈ cs ∧ now - c < 60000000.
Proof.
  unfold in_window, Datetime.timedelta_minutes.
  rewrite list_elem_of_filter. change (1 * 60000000) with 60000000. tauto.
Qed.

Lemma foldr_min_le c cs : foldr Z.min c cs ≤ c.
Proof. induction cs as [|x cs IH]; simpl; lia. Qed.

Lemma foldr_min_lower c cs x : x ∈ cs → foldr Z.min c cs ≤ x.
Proof.
  induction cs as [|y cs IH]; simpl; intros Hx.
  - by apply elem_of_nil in Hx.
  - apply elem_of_cons in Hx as [->|Hx]; [lia|]. specialize (IH Hx). lia.
Qed.

Lemma foldr_min_elem c cs : foldr Z.min c cs ∈ c :: cs.
Proof.
  induction cs as [|y cs IH]; simpl.
  - apply elem_of_cons. by left.
  - rewrite !elem_of_cons. apply elem_of_cons in IH.
    destruct (Z.min_spec y (foldr Z.min c cs)) as [[_ ->]|[_ ->]]; tauto.
Qed.

Lemma min_call_spec cs m :
  min_call cs = Some m → m ∈ cs ∧ ∀ c, c ∈ cs → m ≤ c.
Proof.
  destruct cs as [|c cs]; simpl; [done|]. intros [= <-]. split.
  - apply foldr_min_elem.
  - intros x Hx. apply elem_of_cons in Hx as [->|Hx].
    + apply foldr_min_le.
    + by apply foldr_min_lower.
Qed.

Lemma min_call_nonempty cs : cs ≠ [] → is_Some (min_call cs).
Proof. destruct cs; [done|]. intros _. simpl. eauto. Qed.

Lemma seconds_small d :
  0 ≤ d < 60000000 → Datetime.seconds d = d `div` 1000000.
Proof.
  intros Hd. unfold Datetime.seconds. rewrite Z.mod_small; [done|lia].
Qed.

End window_facts.

(** ** The rate limiter *)

Section rate_limiter.
Import RateLimiter.

Lemma in_window_elapsed now cs c :
  Forall (λ c, c ≤ now) cs → c ∈ in_window now cs → 0 ≤ now - c < 60000000.
Proof.
  intros Hcs Hc. apply in_window_elem in Hc as [Hc Hlt].
  rewrite Forall_forall in Hcs. specialize (Hcs _ Hc). simpl in Hcs. lia.
Qed.

Lemma at_budget_nonempty (rl : t) (kept : list Z) :
  0 < calls_per_minute rl →
  calls_per_minute rl ≤ Z.of_nat (length kept) → kept ≠ [].
Proof. intros Hpos Hle ->. simpl in Hle. lia. Qed.

(** With a positive budget [min] is never taken of an empty window:
    [acquire] returns, and what it stores is the pruned window followed
    by the clock reading taken at entry. *)
Lemma acquire_never_raises (rl : t) now :
  0 < calls_per_minute rl →
  ∃ slept,
    acquire now rl =
      (mk (calls_per_minute rl) (in_window now (calls rl) ++ [now]), Acquired slept).
Proof.
  intros Hpos. unfold acquire. case_decide as Hfull; [|eauto].
  destruct (min_call_nonempty (in_window now (calls rl))) as [m Hm].
  { by eapply at_budget_nonempty. }
  rewrite Hm. eauto.
Qed.

(** A clock that does not step back keeps every stored reading in the
    past of the next call. *)
Lemma acquire_keeps_past (rl : t) now now' :
  0 < calls_per_minute rl →
  Forall (λ c, c ≤ now) (calls rl) → now ≤ now' →
  Forall (λ c, c ≤ now') (calls (acquire now rl).1).
Proof.
  intros Hpos Hcs Hle. destruct (acquire_never_raises rl now Hpos) as [s ->].
  simpl. rewrite Forall_forall in Hcs. apply Forall_forall. intros c Hc.
  apply elem_of_app in Hc as [Hc|Hc].
  - apply in_window_elem in Hc as [Hc _]. specialize (Hcs _ Hc). simpl in Hcs. lia.
  - apply list_elem_of_singleton in Hc as ->. done.
Qed.

(** The limiter of the module, started empty and called at readings
    none of which is later than [now], holds only readings that are not
    later than [now]: the premise on the clock below is what a clock
    that does not step back provides. *)
Lemma acquire_all_past (clock : list Z) (rl : t) now :
  0 < calls_per_minute rl →
  Forall (λ c, c ≤ now) (calls rl) →
  Forall (λ c, c ≤ now) clock →
  0 < calls_per_minute (acquire_all clock rl) ∧
  Forall (λ c, c ≤ now) (calls (acquire_all clock rl)).
Proof.
  revert rl. induction clock as [|c clock IH]; intros rl Hpos Hcs Hclock; [done|].
  apply Forall_cons in Hclock as [Hc Hclock].
  change (acquire_all (c :: clock) rl) with (acquire_all clock (acquire c rl).1).
  apply IH; [| |done].
  - by destruct (acquire_never_raises rl c Hpos) as [s ->].
  - destruct (acquire_never_raises rl c Hpos) as [s ->]. simpl.
    apply Forall_app. split; [|by repeat constructor].
    apply Forall_forall. intros x [Hx _]%in_window_elem.
    rewrite Forall_forall in Hcs. by apply Hcs.
Qed.

(** The sleep of a call that finds the budget used up. *)
Lemma acquire_at_budget (rl : RateLimiter.t) (now : Z) :
  0 < calls_per_minute rl →
  Forall (λ c, c ≤ now) (calls rl) →
  calls_per_minute rl ≤ Z.of_nat (length (in_window now (calls rl))) →
  ∃ oldest wait_time,
    oldest ∈ in_window now (calls rl) ∧
    (∀ c, c ∈ in_window now (calls rl) → oldest ≤ c) ∧
    wait_time = 60 - (now - oldest) `div` 1000000 ∧
    1 ≤ wait_time ≤ 60 ∧
    60000000 - (now - oldest) ≤ Datetime.timedelta_seconds wait_time ∧
    Datetime.timedelta_seconds wait_time < 60000000 - (now - oldest) + 1000000 ∧
    acquire now rl =
      (mk (calls_per_minute rl) (in_window now (calls rl) ++ [now]),
       Acquired (Some wait_time)).
Proof.
  intros Hpos Hpast Hfull.
  destruct (min_call_nonempty (in_window now (calls rl))) as [oldest Hmin].
  { by eapply at_budget_nonempty. }
  destruct (min_call_spec _ _ Hmin) as [Hin Hlow].
  pose proof (in_window_elapsed _ _ _ Hpast Hin) as Hel.
  exists oldest, (60 - (now - oldest) `div` 1000000).
  pose proof (Z.div_pos (now - oldest) 1000000 ltac:(lia) ltac:(lia)) as Hq0.
  pose proof (Z.div_lt_upper_bound (now - oldest) 1000000 60 ltac:(lia) ltac:(lia)) as Hq1.
  pose proof (Z.mul_div_le (now - oldest) 1000000 ltac:(lia)) as Hm0.
  pose proof (Z.mul_succ_div_gt (now - oldest) 1000000 ltac:(lia)) as Hm1.
  unfold Datetime.timedelta_seconds.
  repeat split; try done; try lia.
  unfold acquire. rewrite decide_True by done. rewrite Hmin.
  by rewrite seconds_small.
Qed.

(** C6. With a positive budget B and a clock that has not stepped back,
    a call of [acquire] that finds B or more calls in the pruned window
    sleeps 60 minus the whole seconds elapsed since the oldest call of
    the window: between 1 and 60 seconds, enough for that call to leave
    the window and less than a second more.  It then returns without a
    second check, with its call recorded; it does not raise. *)
Theorem acquire_at_budget_waits_then_admits (rl : RateLimiter.t) (now : Z) :
  0 < calls_per_minute rl →
  Forall (λ c, c ≤ now) (calls rl) →
  calls_per_minute rl ≤ Z.of_nat (length (in_window now (calls rl))) →
  ∃ oldest wait_time,
    oldest ∈ in_window now (calls rl) ∧
    (∀ c, c ∈ in_window now (calls rl) → oldest ≤ c) ∧
    wait_time = 60 - (now - oldest) `div` 1000000 ∧
    1 ≤ wait_time ≤ 60 ∧
    60000000 - (now - oldest) ≤ Datetime.timedelta_seconds wait_time ∧
    Datetime.timedelta_seconds wait_time < 60000000 - (now - oldest) + 1000000 ∧
    acquire now rl =
      (mk (calls_per_minute rl) (in_window now (calls rl) ++ [now]),
       Acquired (Some wait_time)).
Proof. apply acquire_at_budget. Qed.

(** The scenario of the design document: budget 2, two calls just made,
    a third issued at once sleeps the full 60 seconds. *)
Lemma acquire_at_budget_witness :
  ∃ oldest wait_time,
    oldest ∈ in_window 0 [0; 0] ∧
    (∀ c, c ∈ in_window 0 [0; 0] → oldest ≤ c) ∧
    wait_time = 60 - (0 - oldest) `div` 1000000 ∧
    1 ≤ wait_time ≤ 60 ∧
    60000000 - (0 - oldest) ≤ Datetime.timedelta_seconds wait_time ∧
    Datetime.timedelta_seconds wait_time < 60000000 - (0 - oldest) + 1000000 ∧
    acquire 0 (mk 2 [0; 0]) =
      (mk 2 (in_window 0 [0; 0] ++ [0]), Acquired (Some wait_time)).
Proof.
  apply (acquire_at_budget_waits_then_admits (mk 2 [0; 0]) 0).
  - simpl. lia.
  - simpl. repeat constructor; lia.
  - vm_compute. discriminate.
Defined.

(** C10. With a positive budget every call of [acquire] stores the
    pruned window followed by one new reading, the clock taken at entry;
    when the call slept (the clock not having stepped back), that
    reading is strictly earlier than the instant the caller is let
    through. *)
Theorem acquire_records_entry_time (rl : RateLimiter.t) (now : Z) :
  0 < calls_per_minute rl →
  ∃ slept,
    acquire now rl =
      (mk (calls_per_minute rl) (in_window now (calls rl) ++ [now]), Acquired slept) ∧
    length (calls (acquire now rl).1) = S (length (in_window now (calls rl))) ∧
    last (calls (acquire now rl).1) = Some now ∧
    (Forall (λ c, c ≤ now) (calls rl) → is_Some slept →
     now < admission_time now slept).
Proof.
  intros Hpos. destruct (acquire_never_raises rl now Hpos) as [slept Hacq].
  exists slept. rewrite Hacq. simpl. split; [done|]. split.
  { rewrite length_app. simpl. lia. }
  split; [apply last_snoc|].
  intros Hpast [w ->]. revert Hacq. unfold acquire.
  case_decide as Hfull; [|intros [= ?]; done].
  destruct (acquire_at_budget rl now Hpos Hpast Hfull)
    as (oldest & w' & _ & _ & _ & Hw & _ & _ & Hacq).
  unfold acquire in Hacq. rewrite decide_True in Hacq by done.
  intros Hacq'. rewrite Hacq in Hacq'. injection Hacq' as <-.
  unfold admission_time, Datetime.timedelta_seconds. lia.
Qed.

Lemma acquire_records_entry_time_witness :
  ∃ slept,
    acquire 0 (mk 2 [0; 0]) =
      (mk 2 (in_window 0 [0; 0] ++ [0]), Acquired slept) ∧
    length (calls (acquire 0 (mk 2 [0; 0])).1) = S (length (in_window 0 [0; 0])) ∧
    last (calls (acquire 0 (mk 2 [0; 0])).1) = Some 0 ∧
    (Forall (λ c, c ≤ 0) [0; 0] → is_Some slept →
     0 < admission_time 0 slept).
Proof. apply (acquire_records_entry_time (mk 2 [0; 0]) 0). simpl. lia. Defined.

End rate_limiter.

(** ** The loop over the posts of one feed *)

Section post_loop_facts.
Context (cfg : Config) (env : Env) (handle : string).

Lemma too_old_false t :
  too_old cfg env t = false ↔ current_time env - t ≤ POST_AGE_THRESHOLD cfg.
Proof. unfold too_old. rewrite bool_decide_eq_false. lia. Qed.

Lemma already_seen_false newest t :
  already_seen newest t = false ↔
  match newest with None => True | Some w => w < t end.
Proof.
  destruct newest as [w|]; simpl; [|done].
  rewrite bool_decide_eq_false. lia.
Qed.

Lemma passes_iff_eligible newest p :
  too_old cfg env (indexed_at p) = false ∧ already_seen newest (indexed_at p) = false
  ↔ eligible cfg env newest p.
Proof. rewrite too_old_false, already_seen_false. unfold eligible. tauto. Qed.

(** A post that passes line 272 becomes the new [newest_time]. *)
Lemma bump_fresh newest t :
  already_seen newest t = false → bump newest t = Some t.
Proof.
  destruct newest as [w|]; simpl; [|done].
  intros Hs%bool_decide_eq_false. by rewrite bool_decide_true by lia.
Qed.

Lemma watermark_le_refl o : watermark_le o o.
Proof. destruct o; simpl; [lia|done]. Qed.

Lemma watermark_le_trans a b c :
  watermark_le a b → watermark_le b c → watermark_le a c.
Proof. destruct a, b, c; simpl; try done; lia. Qed.

Lemma watermark_le_bump newest t :
  already_seen newest t = false → watermark_le newest (Some t).
Proof. destruct newest as [w|]; simpl; [|done]. intros Hs%bool_decide_eq_false. lia. Qed.

Lemma after_send_trace p r :
  loop_trace (after_send handle p r) = Sent handle p :: loop_trace r.
Proof. by destruct r. Qed.

(** [newest_time] only moves forward while the loop runs. *)
Lemma post_loop_newest_mono posts newest newest' trace :
  post_loop cfg env handle posts newest = Completed newest' trace →
  watermark_le newest newest'.
Proof.
  revert newest newest' trace.
  induction posts as [|p posts IH]; intros newest newest' trace; simpl.
  - intros [= <- _]. apply watermark_le_refl.
  - destruct (too_old cfg env (indexed_at p)); [apply IH|].
    destruct (already_seen newest (indexed_at p)) eqn:Hseen; [apply IH|].
    destruct (send env p); [|done].
    destruct (post_loop cfg env handle posts (bump newest (indexed_at p)))
      as [nt tr|tr] eqn:Hrest; simpl; [|done].
    intros [= <- _]. apply IH in Hrest. rewrite bump_fresh in Hrest by done.
    eapply watermark_le_trans; [by apply watermark_le_bump|done].
Qed.

(** The shape of the trace: sends that returned, then, when the loop
    was left by an exception, the send that raised. *)
Lemma post_loop_shape posts newest :
  match post_loop cfg env handle posts newest with
  | Completed _ trace => ∃ ps, trace = Sent handle <$> ps
  | Aborted trace => ∃ ps p, trace = (Sent handle <$> ps) ++ [SendFailed handle p]
                              ∧ p ∈ posts ∧ send env p = false
  end.
Proof.
  revert newest. induction posts as [|p posts IH]; intros newest; simpl.
  - by exists [].
  - assert (∀ n, match post_loop cfg env handle posts n with
      | Completed _ trace => ∃ ps, trace = Sent handle <$> ps
      | Aborted trace => ∃ ps q, trace = (Sent handle <$> ps) ++ [SendFailed handle q]
                              ∧ q ∈ p :: posts ∧ send env q = false
      end) as IH'.
    { intros n. specialize (IH n). destruct (post_loop cfg env handle posts n); [done|].
      destruct IH as (ps & q & ? & ? & ?). exists ps, q. rewrite elem_of_cons. eauto. }
    destruct (too_old cfg env (indexed_at p)); [apply IH'|].
    destruct (already_seen newest (indexed_at p)); [apply IH'|].
    destruct (send env p) eqn:Hsend.
    + specialize (IH' (bump newest (indexed_at p))).
      destruct (post_loop cfg env handle posts (bump newest (indexed_at p))); simpl.
      * destruct IH' as [ps ->]. by exists (p :: ps).
      * destruct IH' as (ps & q & -> & ? & ?). by exists (p :: ps), q.
    + exists [], p. rewrite elem_of_cons. eauto.
Qed.

(** Every send the loop attempts is for a post of the list that is
    within the age threshold and strictly newer than the [newest_time]
    the loop started from. *)
Lemma post_loop_attempted posts newest p :
  p ∈ attempted_posts (loop_trace (post_loop cfg env handle posts newest)) →
  p ∈ posts ∧ eligible cfg env newest p.
Proof.
  revert newest. induction posts as [|q posts IH]; intros newest; simpl.
  - intros H. by apply elem_of_nil in H.
  - destruct (too_old cfg env (indexed_at q)) eqn:Hold.
    { intros [? ?]%IH. rewrite elem_of_cons. eauto. }
    destruct (already_seen newest (indexed_at q)) eqn:Hseen.
    { intros [? ?]%IH. rewrite elem_of_cons. eauto. }
    assert (eligible cfg env newest q) as Hq by by apply passes_iff_eligible.
    destruct (send env q).
    + rewrite after_send_trace. simpl. rewrite !elem_of_cons.
      intros [->|Hp]; [eauto|]. apply IH in Hp as [Hin Hel].
      split; [eauto|]. rewrite bump_fresh in Hel by done.
      destruct Hel as [Hnew Hage]. split; [|done].
      apply already_seen_false in Hseen. destruct newest; [|done]. lia.
    + simpl. rewrite elem_of_cons, elem_of_nil, elem_of_cons.
      intros [->|[]]. eauto.
Qed.

(** Nothing is sent when the watermark is at or above every post. *)
Lemma post_loop_nothing_new posts w :
  Forall (λ p, indexed_at p ≤ w) posts →
  post_loop cfg env handle posts (Some w) = Completed (Some w) [].
Proof.
  induction 1 as [|p posts Hp _ IH]; simpl; [done|].
  destruct (too_old cfg env (indexed_at p)); [done|].
  by rewrite bool_decide_true.
Qed.

(** The sends of one pass are for strictly later and later instants:
    each post is judged against the last one sent before it. *)
Lemma post_loop_increasing posts newest :
  StronglySorted older
    (attempted_posts (loop_trace (post_loop cfg env handle posts newest))).
Proof.
  revert newest. induction posts as [|q posts IH]; intros newest; simpl.
  - constructor.
  - destruct (too_old cfg env (indexed_at q)); [apply IH|].
    destruct (already_seen newest (indexed_at q)) eqn:Hseen; [apply IH|].
    destruct (send env q).
    + rewrite after_send_trace. change (attempted_posts (Sent handle q :: ?t))
        with (q :: attempted_posts t).
      constructor; [apply IH|]. apply Forall_forall. intros p Hp.
      apply post_loop_attempted in Hp as [_ [Hnew _]].
      by rewrite bump_fresh in Hnew.
    + repeat constructor.
Qed.

End post_loop_facts.

(** ** Feeds in chronological order *)

Lemma filter_ext_Forall {A} (P Q : A → Prop)
    `{!∀ x, Decision (P x), !∀ x, Decision (Q x)} (l : list A) :
  Forall (λ x, P x ↔ Q x) l → filter P l = filter Q l.
Proof.
  induction 1 as [|x l Hx _ IH]; [done|].
  rewrite !filter_cons, IH.
  destruct (decide (P x)), (decide (Q x)); tauto.
Qed.

Section chronological.
Context (cfg : Config) (env : Env) (handle : string).

(** Once a post is sent, the posts indexed after it are judged against
    its instant exactly as against the watermark the loop started
    from. *)
Lemma eligible_after_fresh newest p posts :
  eligible cfg env newest p →
  Forall (older p) posts →
  filter (eligible cfg env (Some (indexed_at p))) posts =
  filter (eligible cfg env newest) posts.
Proof.
  intros [Hnew _] Hposts. apply filter_ext_Forall.
  eapply Forall_impl; [exact Hposts|]. intros q Hq. unfold older in Hq.
  unfold eligible. destruct newest; split; intros [? ?]; split; try done; lia.
Qed.

(** On posts visited oldest first, with sends that return, the loop
    sends exactly the posts the filter of the design document keeps,
    in that order, and ends on the instant of the last one sent. *)
Lemma post_loop_chronological posts newest :
  StronglySorted older posts →
  Forall (λ p, send env p = true) posts →
  post_loop cfg env handle posts newest =
    Completed
      (match last (filter (eligible cfg env newest) posts) with
       | Some p => Some (indexed_at p)
       | None => newest
       end)
      (Sent handle <$> filter (eligible cfg env newest) posts).
Proof.
  intros Hsorted. revert newest.
  induction Hsorted as [|p posts _ IH Hp]; intros newest Hsend; [done|].
  apply Forall_cons in Hsend as [Hsp Hsend]. simpl. rewrite filter_cons.
  destruct (too_old cfg env (indexed_at p)) eqn:Hold.
  { rewrite decide_False; [by apply IH|].
    intros [_ Hage]. apply too_old_false in Hage. congruence. }
  destruct (already_seen newest (indexed_at p)) eqn:Hseen.
  { rewrite decide_False; [by apply IH|].
    intros Hel. apply passes_iff_eligible in Hel as [_ Hs]. congruence. }
  assert (eligible cfg env newest p) as Hel by by apply passes_iff_eligible.
  rewrite decide_True by done. rewrite Hsp, bump_fresh by done.
  rewrite IH by done. rewrite (eligible_after_fresh newest) by done. simpl.
  rewrite last_cons. by destruct (last (filter (eligible cfg env newest) posts)).
Qed.

Lemma newest_first_reverse feed :
  newest_first feed → StronglySorted older (reverse feed).
Proof.
  intros Hfeed. apply Sorted_StronglySorted; [apply _|].
  apply Sorted_reverse in Hfeed. exact Hfeed.
Qed.

End chronological.

(** ** One handle of a sweep *)

Lemma sent_posts_Sent handle (ps : list Post) :
  sent_posts (Sent handle <$> ps) = ps.
Proof. induction ps as [|p ps IH]; [done|]. unfold sent_posts in *. simpl in *. by f_equal. Qed.

Lemma attempted_posts_Sent handle (ps : list Post) :
  attempted_posts (Sent handle <$> ps) = ps.
Proof. induction ps as [|p ps IH]; [done|]. unfold attempted_posts in *. simpl in *. by f_equal. Qed.

Lemma sent_posts_app (t1 t2 : list event) :
  sent_posts (t1 ++ t2) = sent_posts t1 ++ sent_posts t2.
Proof. apply omap_app. Qed.

Lemma attempted_posts_app (t1 t2 : list event) :
  attempted_posts (t1 ++ t2) = attempted_posts t1 ++ attempted_posts t2.
Proof. apply omap_app. Qed.

Section process_handle_facts.
Context (cfg : Config) (env : Env).

(** What [process_handle] does once the feed is in hand. *)
Lemma process_handle_fetched history handle feed :
  Tenacity.result (fetch_posts env handle) = Some feed →
  process_handle cfg env history handle =
    match feed with
    | [] => (history, [])
    | _ =>
      match post_loop cfg env handle (reverse feed) (history !! handle) with
      | Completed (Some newest_time) trace =>
          (<[handle := newest_time]> history,
           trace ++ [SavedHistory (<[handle := newest_time]> history)])
      | Completed None trace => (history, trace)
      | Aborted trace => (history, trace ++ [LogUserError handle])
      end
    end.
Proof. intros Hfetch. unfold process_handle. rewrite Hfetch. by destruct feed. Qed.

(** The sends attempted for a handle are those of its loop. *)
Lemma process_handle_attempted history handle feed :
  Tenacity.result (fetch_posts env handle) = Some feed →
  attempted_posts (process_handle cfg env history handle).2 =
  attempted_posts (loop_trace (post_loop cfg env handle (reverse feed) (history !! handle))).
Proof.
  intros Hfetch. rewrite (process_handle_fetched _ _ feed) by done.
  destruct feed as [|p0 feed0]; [done|].
  destruct (post_loop cfg env handle (reverse (p0 :: feed0)) (history !! handle))
    as [[nt|] tr|tr]; simpl; try done;
    rewrite attempted_posts_app; unfold attempted_posts at 2; simpl;
    by rewrite app_nil_r.
Qed.

(** A handle whose fetch fails, or whose loop is left by an exception,
    or that has nothing to store, keeps the whole history; otherwise
    only its own entry is written, with an instant at or after the
    stored one. *)
Lemma process_handle_history history handle :
  (process_handle cfg env history handle).1 = history ∨
  ∃ newest_time,
    (process_handle cfg env history handle).1 = <[handle := newest_time]> history ∧
    watermark_le (history !! handle) (Some newest_time).
Proof.
  unfold process_handle.
  destruct (Tenacity.result (fetch_posts env handle)) as [[|p feed]|]; [by left| |by left].
  destruct (post_loop cfg env handle (reverse (p :: feed)) (history !! handle))
    as [[nt|] tr|tr] eqn:Hloop; [|by left|by left].
  right. exists nt. split; [done|]. by eapply post_loop_newest_mono.
Qed.

Lemma process_handle_increasing history handle :
  StronglySorted older (attempted_posts (process_handle cfg env history handle).2).
Proof.
  destruct (Tenacity.result (fetch_posts env handle)) as [feed|] eqn:Hfetch.
  - rewrite (process_handle_attempted _ _ feed) by done. apply post_loop_increasing.
  - unfold process_handle. rewrite Hfetch. constructor.
Qed.

Lemma process_handle_mono history handle k :
  watermark_le (history !! k) ((process_handle cfg env history handle).1 !! k).
Proof.
  destruct (process_handle_history history handle) as [->|(nt & -> & Hle)].
  - apply watermark_le_refl.
  - destruct (decide (handle = k)) as [->|Hne].
    + by rewrite lookup_insert_eq.
    + rewrite lookup_insert_ne by done. apply watermark_le_refl.
Qed.

Lemma handle_loop_mono handles history k :
  watermark_le (history !! k) ((handle_loop cfg env handles history).1 !! k).
Proof.
  revert history. induction handles as [|handle rest IH]; intros history; simpl.
  - apply watermark_le_refl.
  - pose proof (process_handle_mono history handle k) as H1.
    destruct (process_handle cfg env history handle) as [h1 t1].
    specialize (IH h1). destruct (handle_loop cfg env rest h1) as [h2 t2].
    simpl in *. by eapply watermark_le_trans.
Qed.

(** The sweep, with the result of the loop over the handles taken
    apart. *)
Lemma sweep_unfold history :
  check_subscriptions_updates cfg env history =
    if channel env then
      match Tenacity.result (get_list_members env) with
      | None => (history, get_list_members_trace env ++ [LogUpdateError])
      | Some [] => (history, get_list_members_trace env ++ [LogNoHandles])
      | Some handles =>
          ((handle_loop cfg env handles history).1,
           get_list_members_trace env ++ (handle_loop cfg env handles history).2)
      end
    else (history, [LogNoChannel]).
Proof.
  unfold check_subscriptions_updates. destruct (channel env); [|done].
  destruct (Tenacity.result (get_list_members env)) as [[|h hs]|]; try done.
  by destruct (handle_loop cfg env (h :: hs) history).
Qed.

Lemma sweep_members history handles :
  channel env = true →
  Tenacity.result (get_list_members env) = Some handles →
  handles ≠ [] →
  check_subscriptions_updates cfg env history =
    ((handle_loop cfg env handles history).1,
     get_list_members_trace env ++ (handle_loop cfg env handles history).2).
Proof.
  intros Hchan Hlist Hne. rewrite sweep_unfold, Hchan, Hlist. by destruct handles.
Qed.

(** [get_list_members] runs its body once and logs one line. *)
Lemma get_list_members_trace_single :
  get_list_members_trace env = get_list_members_log (get_list env 1).
Proof. unfold get_list_members_trace. simpl. apply app_nil_r. Qed.

Lemma get_list_members_trace_quiet e :
  e ∈ get_list_members_trace env →
  e = LogListError ∨ e = LogNoMembers ∨ ∃ n, e = LogFoundMembers n.
Proof.
  rewrite get_list_members_trace_single. unfold get_list_members_log.
  destruct (get_list env 1) as [[|i items]|];
    intros ->%list_elem_of_singleton; eauto.
Qed.

Lemma sweep_mono history k :
  watermark_le (history !! k) ((check_subscriptions_updates cfg env history).1 !! k).
Proof.
  rewrite sweep_unfold.
  destruct (channel env); [|apply watermark_le_refl].
  destruct (Tenacity.result (get_list_members env)) as [[|h hs]|];
    [apply watermark_le_refl|apply handle_loop_mono|apply watermark_le_refl].
Qed.

Lemma handle_loop_app before after history :
  handle_loop cfg env (before ++ after) history =
    let '(h1, t1) := handle_loop cfg env before history in
    let '(h2, t2) := handle_loop cfg env after h1 in
    (h2, t1 ++ t2).
Proof.
  revert history. induction before as [|handle rest IH]; intros history; simpl.
  - by destruct (handle_loop cfg env after history).
  - destruct (process_handle cfg env history handle) as [h1 t1].
    rewrite IH. destruct (handle_loop cfg env rest h1) as [h2 t2].
    destruct (handle_loop cfg env after h2) as [h3 t3]. by rewrite app_assoc.
Qed.

End process_handle_facts.

Lemma run_sweeps_app cfg envs1 envs2 history :
  run_sweeps cfg (envs1 ++ envs2) history =
  run_sweeps cfg envs2 (run_sweeps cfg envs1 history).
Proof. revert history. induction envs1 as [|e es IH]; intros h; simpl; [done|apply IH]. Qed.

Lemma run_sweeps_mono cfg envs history k :
  watermark_le (history !! k) (run_sweeps cfg envs history !! k).
Proof.
  revert history. induction envs as [|e es IH]; intros h; simpl.
  - apply watermark_le_refl.
  - eapply watermark_le_trans; [apply sweep_mono|apply IH].
Qed.

(** C3. For every handle the stored watermark only moves forward: one
    sweep, whatever the feeds, their order, the ages of the posts and
    the sends that fail, leaves an entry at or after the one it found,
    and so does every further run of sweeps after any run of sweeps. *)
Theorem watermark_never_regresses (cfg : Config) (envs1 envs2 : list Env)
    (env : Env) (history : gmap string Z) (handle : string) :
  watermark_le (history !! handle)
               ((check_subscriptions_updates cfg env history).1 !! handle) ∧
  watermark_le (run_sweeps cfg envs1 history !! handle)
               (run_sweeps cfg (envs1 ++ envs2) history !! handle).
Proof.
  split; [apply sweep_mono|]. rewrite run_sweeps_app. apply run_sweeps_mono.
Qed.

Section filtered_feed.
Context (cfg : Config) (env : Env).

(** A newest-first feed whose sends return: the handle's posts go out
    oldest first, exactly those the filter of the design document
    keeps against the stored watermark, and the watermark becomes the
    instant of the newest of them. *)
Lemma process_handle_chronological history handle feed :
  Tenacity.result (fetch_posts env handle) = Some feed →
  newest_first feed →
  Forall (λ p, send env p = true) feed →
  sent_posts (process_handle cfg env history handle).2
    = reverse (filter (eligible cfg env (history !! handle)) feed) ∧
  attempted_posts (process_handle cfg env history handle).2
    = reverse (filter (eligible cfg env (history !! handle)) feed) ∧
  (process_handle cfg env history handle).1 =
    match head (filter (eligible cfg env (history !! handle)) feed) with
    | Some p => <[handle := indexed_at p]> history
    | None => history
    end.
Proof.
  intros Hfetch Hsorted Hsend. rewrite (process_handle_fetched _ _ _ _ feed) by done.
  destruct feed as [|p0 feed0]; [done|].
  set (feed := p0 :: feed0) in *.
  rewrite post_loop_chronological;
    [|by apply newest_first_reverse|by apply Forall_reverse].
  rewrite filter_reverse, last_reverse.
  destruct (head (filter (eligible cfg env (history !! handle)) feed)) as [p|] eqn:Hhead.
  - simpl. rewrite sent_posts_app, attempted_posts_app.
    rewrite sent_posts_Sent, attempted_posts_Sent.
    unfold sent_posts, attempted_posts. simpl. by rewrite !app_nil_r.
  - destruct (history !! handle) as [w|] eqn:Hw; simpl.
    + rewrite sent_posts_app, attempted_posts_app.
      rewrite sent_posts_Sent, attempted_posts_Sent.
      unfold sent_posts, attempted_posts. simpl. rewrite !app_nil_r.
      by rewrite insert_id.
    + by rewrite sent_posts_Sent, attempted_posts_Sent.
Qed.

Lemma filter_all {A} (P : A → Prop) `{!∀ x, Decision (P x)} (l : list A) :
  Forall P l → filter P l = l.
Proof.
  induction 1 as [|x l Hx _ IH]; [done|]. by rewrite filter_cons_True, IH.
Qed.

(** C7. For a feed received newest first whose posts are all strictly
    newer than the handle's watermark and within the age threshold,
    with sends that return, the posts are sent in chronological order,
    oldest first (for T1 < T2 < T3: T1, T2, T3), and the handle's
    watermark becomes the instant of the single newest post. *)
Theorem chronological_forwarding (history : gmap string Z) (handle : string)
    (feed : list Post) (newest : Post) :
  Tenacity.result (fetch_posts env handle) = Some feed →
  newest_first feed →
  head feed = Some newest →
  Forall (eligible cfg env (history !! handle)) feed →
  Forall (λ p, send env p = true) feed →
  sent_posts (process_handle cfg env history handle).2 = reverse feed ∧
  StronglySorted older (sent_posts (process_handle cfg env history handle).2) ∧
  (process_handle cfg env history handle).1 = <[handle := indexed_at newest]> history.
Proof.
  intros Hfetch Hsorted Hhead Hel Hsend.
  destruct (process_handle_chronological history handle feed) as (Hs & _ & Hh); try done.
  rewrite filter_all in Hs, Hh by done. rewrite Hhead in Hh.
  rewrite Hs. split; [done|]. split; [|done]. by apply newest_first_reverse.
Qed.

(** C5. The age test is inclusive at the threshold: a post whose age is
    exactly the threshold passes it (and, alone in a feed with no
    watermark, is sent), while a post strictly older than the threshold
    is skipped, whatever the feed and the watermark. *)
Theorem age_boundary_inclusive (handle : string) (p : Post)
    (posts : list Post) (newest_time : option Z) :
  (current_time env - indexed_at p = POST_AGE_THRESHOLD cfg →
     too_old cfg env (indexed_at p) = false ∧
     (send env p = true →
      post_loop cfg env handle [p] None = Completed (Some (indexed_at p)) [Sent handle p])) ∧
  (POST_AGE_THRESHOLD cfg < current_time env - indexed_at p →
     too_old cfg env (indexed_at p) = true ∧
     p ∉ attempted_posts (loop_trace (post_loop cfg env handle posts newest_time))).
Proof.
  split.
  - intros Hage. assert (too_old cfg env (indexed_at p) = false) as Hold.
    { apply too_old_false. lia. }
    split; [done|]. intros Hsend. simpl. by rewrite Hold, Hsend.
  - intros Hage. split.
    + unfold too_old. by apply bool_decide_eq_true.
    + intros [_ [_ Hin]]%post_loop_attempted. lia.
Qed.

End filtered_feed.

(** ** Witnesses for the feed properties *)

Lemma chronological_forwarding_witness :
  sent_posts (process_handle sample_cfg
                (sample_env (λ _, Returned [P3; P2; P1]) all_sent (at_minute 611))
                {[ "bob" := at_minute 595 ]} "bob").2 = reverse [P3; P2; P1] ∧
  StronglySorted older
    (sent_posts (process_handle sample_cfg
                   (sample_env (λ _, Returned [P3; P2; P1]) all_sent (at_minute 611))
                   {[ "bob" := at_minute 595 ]} "bob").2) ∧
  (process_handle sample_cfg
     (sample_env (λ _, Returned [P3; P2; P1]) all_sent (at_minute 611))
     {[ "bob" := at_minute 595 ]} "bob").1
  = <[ "bob" := indexed_at P3 ]> {[ "bob" := at_minute 595 ]}.
Proof.
  apply (chronological_forwarding sample_cfg
           (sample_env (λ _, Returned [P3; P2; P1]) all_sent (at_minute 611))
           {[ "bob" := at_minute 595 ]} "bob" [P3; P2; P1] P3).
  - reflexivity.
  - repeat constructor; unfold older; vm_compute; reflexivity.
  - reflexivity.
  - rewrite lookup_singleton_eq.
    repeat constructor; vm_compute; congruence.
  - repeat constructor.
Defined.

Lemma age_boundary_witness :
  (too_old sample_cfg (sample_env (λ _, Raised) all_sent (at_minute 660))
     (indexed_at P1) = false ∧
   (all_sent P1 = true →
    post_loop sample_cfg (sample_env (λ _, Raised) all_sent (at_minute 660))
      "alice" [P1] None = Completed (Some (indexed_at P1)) [Sent "alice" P1])) ∧
  (too_old sample_cfg (sample_env (λ _, Raised) all_sent (at_minute 666))
     (indexed_at P2) = true ∧
   P2 ∉ attempted_posts (loop_trace
          (post_loop sample_cfg (sample_env (λ _, Raised) all_sent (at_minute 666))
             "alice" [P3; P2; P1] None))).
Proof.
  split.
  - apply (proj1 (age_boundary_inclusive sample_cfg
             (sample_env (λ _, Raised) all_sent (at_minute 660)) "alice" P1 [] None)).
    reflexivity.
  - apply (proj2 (age_boundary_inclusive sample_cfg
             (sample_env (λ _, Raised) all_sent (at_minute 666)) "alice" P2
             [P3; P2; P1] None)).
    vm_compute. reflexivity.
Defined.

(** ** The dedup filter *)

Section dedup.
Context (cfg : Config) (env : Env).

(** C4, as the code has it.  With a watermark at or above every post of
    the feed nothing is sent and the history is unchanged.  Every send
    attempted is for a post of the feed within the age threshold and
    strictly newer than the stored watermark, and also strictly newer
    than the posts sent before it in the same pass.  When the feed is
    newest first and the sends return, the posts sent are exactly those
    the filter of the design document keeps: with no watermark, all
    posts within the age threshold. *)
Theorem dedup_idempotent_on_running_watermark (history : gmap string Z)
    (handle : string) (feed : list Post) :
  Tenacity.result (fetch_posts env handle) = Some feed →
  (∀ w, history !! handle = Some w →
        Forall (λ p, indexed_at p ≤ w) feed →
        attempted_posts (process_handle cfg env history handle).2 = [] ∧
        (process_handle cfg env history handle).1 = history) ∧
  (∀ p, p ∈ attempted_posts (process_handle cfg env history handle).2 →
        p ∈ feed ∧ eligible cfg env (history !! handle) p) ∧
  StronglySorted older (attempted_posts (process_handle cfg env history handle).2) ∧
  (newest_first feed →
   Forall (λ p, send env p = true) feed →
   sent_posts (process_handle cfg env history handle).2
     = reverse (filter (eligible cfg env (history !! handle)) feed)).
Proof.
  intros Hfetch. split; [|split; [|split]].
  - intros w Hw Hall. rewrite (process_handle_fetched _ _ _ _ feed) by done.
    destruct feed as [|p0 feed0]; [done|]. rewrite Hw.
    rewrite post_loop_nothing_new by by apply Forall_reverse.
    simpl. split; [done|]. by apply insert_id.
  - intros p. rewrite (process_handle_attempted _ _ _ _ feed) by done.
    intros [Hin Hel]%post_loop_attempted. by rewrite elem_of_reverse in Hin.
  - apply process_handle_increasing.
  - intros Hsorted Hsend.
    by destruct (process_handle_chronological cfg env history handle feed) as (? & _ & _).
Qed.

End dedup.

Lemma dedup_idempotent_witness :
  (∀ w, ({[ "bob" := at_minute 605 ]} : gmap string Z) !! "bob" = Some w →
        Forall (λ p, indexed_at p ≤ w) [P2; P1] →
        attempted_posts (process_handle sample_cfg
          (sample_env (λ _, Returned [P2; P1]) all_sent (at_minute 606))
          {[ "bob" := at_minute 605 ]} "bob").2 = [] ∧
        (process_handle sample_cfg
          (sample_env (λ _, Returned [P2; P1]) all_sent (at_minute 606))
          {[ "bob" := at_minute 605 ]} "bob").1 = {[ "bob" := at_minute 605 ]}) ∧
  (∀ p, p ∈ attempted_posts (process_handle sample_cfg
          (sample_env (λ _, Returned [P2; P1]) all_sent (at_minute 606))
          {[ "bob" := at_minute 605 ]} "bob").2 →
        p ∈ [P2; P1] ∧
        eligible sample_cfg (sample_env (λ _, Returned [P2; P1]) all_sent (at_minute 606))
          (({[ "bob" := at_minute 605 ]} : gmap string Z) !! "bob") p) ∧
  StronglySorted older (attempted_posts (process_handle sample_cfg
          (sample_env (λ _, Returned [P2; P1]) all_sent (at_minute 606))
          {[ "bob" := at_minute 605 ]} "bob").2) ∧
  (newest_first [P2; P1] →
   Forall (λ p, all_sent p = true) [P2; P1] →
   sent_posts (process_handle sample_cfg
          (sample_env (λ _, Returned [P2; P1]) all_sent (at_minute 606))
          {[ "bob" := at_minute 605 ]} "bob").2
     = reverse (filter (eligible sample_cfg
          (sample_env (λ _, Returned [P2; P1]) all_sent (at_minute 606))
          (({[ "bob" := at_minute 605 ]} : gmap string Z) !! "bob")) [P2; P1])).
Proof.
  apply (dedup_idempotent_on_running_watermark sample_cfg
           (sample_env (λ _, Returned [P2; P1]) all_sent (at_minute 606))
           {[ "bob" := at_minute 605 ]} "bob" [P2; P1]).
  reflexivity.
Defined.

(** C4 as worded fails: with no watermark for the handle and every post
    within the age threshold, a post that the feed lists before a newer
    one (a repost, a pinned post) is not sent, because the loop has
    moved [newest_time] to the newer post by the time it reaches it. *)
Lemma absent_watermark_not_all_posts_qualify :
  (∅ : gmap string Z) !! "alice" = None ∧
  Forall (eligible sample_cfg
            (sample_env (λ _, Returned [P1; P2]) all_sent (at_minute 606)) None)
         [P1; P2] ∧
  sent_posts (process_handle sample_cfg
                (sample_env (λ _, Returned [P1; P2]) all_sent (at_minute 606))
                ∅ "alice").2 = [P2] ∧
  ¬ (∀ p, p ∈ [P1; P2] →
          p ∈ sent_posts (process_handle sample_cfg
                (sample_env (λ _, Returned [P1; P2]) all_sent (at_minute 606))
                ∅ "alice").2).
Proof.
  split; [done|]. split.
  { repeat constructor; vm_compute; congruence. }
  assert (sent_posts (process_handle sample_cfg
                (sample_env (λ _, Returned [P1; P2]) all_sent (at_minute 606))
                ∅ "alice").2 = [P2]) as Hsent by (vm_compute; reflexivity).
  split; [done|]. rewrite Hsent. intros Hall.
  specialize (Hall P1 ltac:(rewrite elem_of_cons; by left)).
  apply list_elem_of_singleton in Hall. discriminate.
Qed.

(** ** The retry wrappers *)

Section retry_facts.
Context (env : Env).

(** The [except] clause of [get_list_members] turns the exception of
    the remote call into the return of the empty list, so the decorator
    sees a normal return at the first attempt. *)
Lemma get_list_members_single_attempt :
  get_list_members env =
    Tenacity.mk_run (Some (get_list_members_body (get_list env 1))) 1 [].
Proof. reflexivity. Qed.

Lemma fetch_posts_exhausted handle :
  (∀ n, (1 ≤ n ≤ 3)%nat → get_author_feed env handle n = Raised) →
  fetch_posts env handle = Tenacity.mk_run None 3 [4; 4].
Proof.
  intros Hdown. unfold fetch_posts, Tenacity.retry, retry_stop. simpl.
  rewrite !Hdown by lia. reflexivity.
Qed.

End retry_facts.

(** C2, at an input where the first call of [get_list] raises and the
    second would answer: [get_list_members] returns the empty list after
    one attempt and no wait, while [fetch_posts], under the same
    decorator, waits 4 seconds and succeeds at its second attempt. *)
Theorem get_list_members_never_retries :
  get_list flaky_list_env 1 = Raised ∧
  get_list flaky_list_env 2 = Returned [Some "alice"] ∧
  get_list_members flaky_list_env = Tenacity.mk_run (Some []) 1 [] ∧
  fetch_posts flaky_list_env "alice" = Tenacity.mk_run (Some [P1]) 2 [4].
Proof. repeat split. Qed.

(** ** Which posts go out, and under which handle *)

Section sent_events.
Context (cfg : Config) (env : Env).

Lemma process_handle_other history handle k :
  k ≠ handle → (process_handle cfg env history handle).1 !! k = history !! k.
Proof.
  intros Hne. destruct (process_handle_history cfg env history handle)
    as [->|(nt & -> & _)]; [done|].
  by rewrite lookup_insert_ne.
Qed.

Lemma handle_loop_other handles history k :
  k ∉ handles → (handle_loop cfg env handles history).1 !! k = history !! k.
Proof.
  revert history. induction handles as [|handle rest IH]; intros history Hk; [done|].
  apply not_elem_of_cons in Hk as [Hne Hk]. simpl.
  pose proof (process_handle_other history handle k Hne) as H1.
  destruct (process_handle cfg env history handle) as [h1 t1].
  specialize (IH h1 Hk). destruct (handle_loop cfg env rest h1) as [h2 t2].
  simpl in *. congruence.
Qed.

Lemma eligible_mono w w' p :
  watermark_le w w' → eligible cfg env w' p → eligible cfg env w p.
Proof.
  unfold eligible. destruct w as [a|], w' as [b|]; simpl; try tauto.
  intros Hle [? ?]. split; [lia|done].
Qed.

Lemma post_loop_sent_event handle posts newest h p :
  Sent h p ∈ loop_trace (post_loop cfg env handle posts newest) →
  h = handle ∧ p ∈ attempted_posts (loop_trace (post_loop cfg env handle posts newest)).
Proof.
  pose proof (post_loop_shape cfg env handle posts newest) as Hshape.
  destruct (post_loop cfg env handle posts newest) as [nt tr|tr]; simpl.
  - destruct Hshape as [ps ->]. rewrite attempted_posts_Sent.
    intros (q & [= -> ->] & Hq)%list_elem_of_fmap. done.
  - destruct Hshape as (ps & q & -> & _). rewrite attempted_posts_app, attempted_posts_Sent.
    rewrite !elem_of_app, list_elem_of_singleton.
    intros [(q' & [= -> ->] & Hq)%list_elem_of_fmap|?]; [|done]. by split; [|left].
Qed.

Lemma process_handle_sent_event history handle h p :
  Sent h p ∈ (process_handle cfg env history handle).2 →
  h = handle ∧ eligible cfg env (history !! handle) p.
Proof.
  unfold process_handle.
  destruct (Tenacity.result (fetch_posts env handle)) as [[|p0 feed0]|]; simpl.
  - intros H. by apply elem_of_nil in H.
  - pose proof (post_loop_sent_event handle (reverse (p0 :: feed0)) (history !! handle) h p)
      as Hev.
    pose proof (post_loop_attempted cfg env handle (reverse (p0 :: feed0))
                  (history !! handle) p) as Hatt.
    destruct (post_loop cfg env handle (reverse (p0 :: feed0)) (history !! handle))
      as [[nt|] tr|tr]; simpl in *.
    + rewrite elem_of_app, list_elem_of_singleton.
      intros [H|?]; [|done]. destruct (Hev H) as [-> Hp]. split; [done|]. by apply Hatt.
    + intros H. destruct (Hev H) as [-> Hp]. split; [done|]. by apply Hatt.
    + rewrite elem_of_app, list_elem_of_singleton.
      intros [H|?]; [|done]. destruct (Hev H) as [-> Hp]. split; [done|]. by apply Hatt.
  - rewrite list_elem_of_singleton. discriminate.
Qed.

Lemma handle_loop_sent_event handles history h p :
  Sent h p ∈ (handle_loop cfg env handles history).2 →
  h ∈ handles ∧ eligible cfg env (history !! h) p.
Proof.
  revert history. induction handles as [|handle rest IH]; intros history; simpl.
  - intros H. by apply elem_of_nil in H.
  - pose proof (process_handle_sent_event history handle h p) as H1.
    pose proof (process_handle_mono cfg env history handle h) as Hmono.
    destruct (process_handle cfg env history handle) as [h1 t1].
    specialize (IH h1). destruct (handle_loop cfg env rest h1) as [h2 t2].
    simpl in *. rewrite elem_of_app, elem_of_cons. intros [Hin|Hin].
    + destruct (H1 Hin) as [-> ?]. split; [by left|done].
    + destruct (IH Hin) as [? Hel]. split; [by right|]. by eapply eligible_mono.
Qed.

Lemma sorted_last_is_max (l : list Post) p :
  StronglySorted older l → last l = Some p →
  Forall (λ q, indexed_at q ≤ indexed_at p) l.
Proof.
  induction 1 as [|q l Hs IH Hq]; [done|]. rewrite last_cons.
  destruct (last l) as [y|] eqn:Hlast.
  - intros [= ->]. constructor; [|by apply IH].
    assert (p ∈ l) as Hp by by eapply last_Some_elem_of.
    rewrite Forall_forall in Hq. specialize (Hq p Hp). unfold older in Hq. lia.
  - intros [= ->]. apply last_None in Hlast as ->. repeat constructor; lia.
Qed.

(** A post the loop sends is one the filter keeps against the
    [newest_time] the loop started from, and every post visited before
    it was indexed strictly earlier. *)
Lemma post_loop_sent_before handle posts newest p :
  Sent handle p ∈ loop_trace (post_loop cfg env handle posts newest) →
  eligible cfg env newest p ∧
  ∃ l1 l2, posts = l1 ++ p :: l2 ∧ Forall (λ q, indexed_at q < indexed_at p) l1.
Proof.
  revert newest. induction posts as [|q posts IH]; intros newest; simpl.
  - intros H. by apply elem_of_nil in H.
  - destruct (too_old cfg env (indexed_at q)) eqn:Hold.
    { intros (Hel & l1 & l2 & -> & Hl1)%IH. split; [done|].
      exists (q :: l1), l2. split; [done|]. constructor; [|done].
      destruct Hel as [_ Hage]. unfold too_old in Hold.
      apply bool_decide_eq_true in Hold. lia. }
    destruct (already_seen newest (indexed_at q)) eqn:Hseen.
    { intros (Hel & l1 & l2 & -> & Hl1)%IH. split; [done|].
      exists (q :: l1), l2. split; [done|]. constructor; [|done].
      destruct newest as [w|]; [|done]. simpl in Hseen.
      apply bool_decide_eq_true in Hseen. destruct Hel as [Hnew _]. lia. }
    assert (eligible cfg env newest q) as Hq by by apply passes_iff_eligible.
    destruct (send env q).
    + rewrite after_send_trace, elem_of_cons. intros [[= ->]|Hin].
      * split; [done|]. exists [], posts. by split.
      * apply IH in Hin as (Hel & l1 & l2 & -> & Hl1).
        rewrite bump_fresh in Hel by done. split.
        { eapply eligible_mono; [|exact Hel]. by apply watermark_le_bump. }
        exists (q :: l1), l2. split; [done|]. constructor; [|done].
        by destruct Hel as [Hnew _].
    + simpl. rewrite list_elem_of_singleton. discriminate.
Qed.

(** Conversely, with sends that return, a post the filter keeps is sent
    when every post visited before it was indexed strictly earlier. *)
Lemma post_loop_resends handle l1 p l2 newest :
  Forall (λ q, indexed_at q < indexed_at p) l1 →
  eligible cfg env newest p →
  Forall (λ q, send env q = true) (l1 ++ p :: l2) →
  Sent handle p ∈ loop_trace (post_loop cfg env handle (l1 ++ p :: l2) newest).
Proof.
  intros Hl1. revert newest. induction Hl1 as [|q l1 Hq _ IH]; intros newest Hel Hsend.
  - apply Forall_cons in Hsend as [Hp _]. simpl.
    apply passes_iff_eligible in Hel as [-> ->]. rewrite Hp, after_send_trace.
    apply elem_of_cons. by left.
  - apply Forall_cons in Hsend as [Hsq Hsend]. simpl.
    destruct (too_old cfg env (indexed_at q)); [by apply IH|].
    destruct (already_seen newest (indexed_at q)) eqn:Hseen; [by apply IH|].
    rewrite Hsq, after_send_trace, bump_fresh by done.
    apply elem_of_cons. right. apply IH; [|done].
    destruct Hel as [_ Hage]. by split.
Qed.

(** The sends of a handle's turn are those of its loop. *)
Lemma process_handle_sent_iff history handle feed h p :
  Tenacity.result (fetch_posts env handle) = Some feed →
  Sent h p ∈ (process_handle cfg env history handle).2 ↔
  Sent h p ∈ loop_trace (post_loop cfg env handle (reverse feed) (history !! handle)).
Proof.
  intros Hfetch. rewrite (process_handle_fetched _ _ _ _ feed) by done.
  destruct feed as [|p0 feed0]; [done|].
  destruct (post_loop cfg env handle (reverse (p0 :: feed0)) (history !! handle))
    as [[nt|] tr|tr]; simpl; try done;
    rewrite elem_of_app, list_elem_of_singleton; split; eauto;
    intros [?|?]; done.
Qed.

Lemma sent_posts_event (trace : list event) p :
  p ∈ sent_posts trace → ∃ h, Sent h p ∈ trace.
Proof.
  induction trace as [|e trace IH]; [intros H; by apply elem_of_nil in H|].
  destruct e; try (intros (h & Hh)%IH; exists h; apply elem_of_cons; by right).
  change (sent_posts (Sent handle post :: trace)) with (post :: sent_posts trace).
  rewrite elem_of_cons. intros [->|(h & Hh)%IH].
  - exists handle. apply elem_of_cons. by left.
  - exists h. apply elem_of_cons. by right.
Qed.

(** A handle whose watermark is at or above its whole feed is left as
    it is by its turn. *)
Lemma process_handle_nothing_new history handle feed w :
  Tenacity.result (fetch_posts env handle) = Some feed →
  history !! handle = Some w →
  Forall (λ p, indexed_at p ≤ w) feed →
  process_handle cfg env history handle =
    (history, match feed with [] => [] | _ => [SavedHistory history] end).
Proof.
  intros Hfetch Hw Hall. rewrite (process_handle_fetched _ _ _ _ feed) by done.
  destruct feed as [|p0 feed0]; [done|]. rewrite Hw.
  rewrite post_loop_nothing_new by by apply Forall_reverse.
  simpl. by rewrite insert_id.
Qed.

Lemma handle_loop_settled handles history other feed w :
  Tenacity.result (fetch_posts env other) = Some feed →
  Forall (λ p, indexed_at p ≤ w) feed →
  history !! other = Some w →
  (handle_loop cfg env handles history).1 !! other = Some w.
Proof.
  intros Hfetch Hall. revert history.
  induction handles as [|handle rest IH]; intros history Hw; [done|]. simpl.
  assert ((process_handle cfg env history handle).1 !! other = Some w) as H1.
  { destruct (decide (other = handle)) as [<-|Hne].
    - by rewrite (process_handle_nothing_new history other feed w).
    - by rewrite process_handle_other. }
  destruct (process_handle cfg env history handle) as [h1 t1].
  specialize (IH h1 H1). by destruct (handle_loop cfg env rest h1).
Qed.

(** An account of the list whose fetch returns a newest-first feed of
    posts the filter keeps, with sends that return, has every post of
    that feed sent in the loop over the handles, and ends with the
    instant of its newest post as watermark, whatever happens to the
    other accounts. *)
Lemma handle_loop_processes handles history other feed newest :
  other ∈ handles →
  Tenacity.result (fetch_posts env other) = Some feed →
  newest_first feed →
  head feed = Some newest →
  Forall (eligible cfg env (history !! other)) feed →
  Forall (λ p, send env p = true) feed →
  (∀ p, p ∈ feed → Sent other p ∈ (handle_loop cfg env handles history).2) ∧
  (handle_loop cfg env handles history).1 !! other = Some (indexed_at newest).
Proof.
  intros Hin Hfetch Hsorted Hhead. revert history Hin.
  induction handles as [|handle rest IH]; intros history Hin Hel Hsend.
  { by apply elem_of_nil in Hin. }
  simpl. destruct (decide (other = handle)) as [<-|Hne].
  - destruct (process_handle_chronological cfg env history other feed)
      as (Hsent & _ & Hhist); [done..|].
    rewrite filter_all in Hsent, Hhist by done. rewrite Hhead in Hhist.
    assert (∀ p, p ∈ feed → Sent other p ∈ (process_handle cfg env history other).2)
      as Hall.
    { intros p Hp. assert (p ∈ sent_posts (process_handle cfg env history other).2) as Hps.
      { rewrite Hsent. by apply elem_of_reverse. }
      destruct (sent_posts_event _ _ Hps) as (h & Hh).
      by destruct (process_handle_sent_event _ _ _ _ Hh) as [-> _]. }
    assert (Forall (λ p, indexed_at p ≤ indexed_at newest) feed) as Hmax.
    { apply Forall_reverse. apply sorted_last_is_max.
      - by apply newest_first_reverse.
      - by rewrite last_reverse. }
    destruct (process_handle cfg env history other) as [h1 t1]. simpl in *.
    pose proof (handle_loop_settled rest h1 other feed (indexed_at newest) Hfetch Hmax)
      as Hkeep.
    destruct (handle_loop cfg env rest h1) as [h2 t2]. simpl in *. split.
    + intros p Hp. apply elem_of_app. left. by apply Hall.
    + apply Hkeep. subst h1. by rewrite lookup_insert_eq.
  - apply elem_of_cons in Hin as [?|Hin]; [done|].
    pose proof (process_handle_other history handle other Hne) as Hsame.
    destruct (process_handle cfg env history handle) as [h1 t1]. simpl in *.
    destruct (IH h1 Hin) as [Hall Hw]; [by rewrite Hsame|done|].
    destruct (handle_loop cfg env rest h1) as [h2 t2]. simpl in *. split; [|done].
    intros p Hp. apply elem_of_app. right. by apply Hall.
Qed.

End sent_events.

(** ** Failures inside a sweep *)

Section failures.
Context (cfg : Config) (env : Env).

Lemma SendFailed_not_Sent handle p (ps : list Post) :
  SendFailed handle p ∉ Sent handle <$> ps.
Proof. intros (q & Hq & _)%list_elem_of_fmap. discriminate. Qed.

(** A send that raises ends the handle's turn: the sends made before it
    stay made, the error is logged, and the history is the one the
    handle's turn started from. *)
Lemma process_handle_send_failed history handle p :
  SendFailed handle p ∈ (process_handle cfg env history handle).2 →
  (process_handle cfg env history handle).1 = history ∧
  send env p = false ∧
  ∃ sent,
    (process_handle cfg env history handle).2 =
      (Sent handle <$> sent) ++ [SendFailed handle p; LogUserError handle].
Proof.
  unfold process_handle.
  destruct (Tenacity.result (fetch_posts env handle)) as [[|p0 feed0]|]; simpl.
  - intros H. by apply elem_of_nil in H.
  - pose proof (post_loop_shape cfg env handle (reverse (p0 :: feed0))
                  (history !! handle)) as Hshape.
    destruct (post_loop cfg env handle (reverse (p0 :: feed0)) (history !! handle))
      as [[nt|] tr|tr]; simpl.
    + destruct Hshape as [ps ->]. rewrite elem_of_app, list_elem_of_singleton.
      intros [H|H]; [by apply SendFailed_not_Sent in H|discriminate].
    + destruct Hshape as [ps ->]. intros H. by apply SendFailed_not_Sent in H.
    + destruct Hshape as (ps & q & -> & _ & Hq).
      rewrite !elem_of_app, !list_elem_of_singleton.
      intros [[H|H]|H]; [by apply SendFailed_not_Sent in H| |discriminate].
      injection H as ->. split; [done|]. split; [done|].
      exists ps. by rewrite <- app_assoc.
  - rewrite list_elem_of_singleton. discriminate.
Qed.

(** C1, as the code has it.  When a send for a handle raises, the
    failure is logged, no further post of that handle is attempted, the
    history is left exactly as it was before the handle's turn (the
    posts already sent in this turn are not covered by any advance of
    the watermark), and the sweep goes on with the next handles from
    that unchanged history.  The posts sent in the failed turn stay
    eligible: a later turn of the handle on the same feed, with sends
    that return, sends again each of them that is still within the age
    threshold. *)
Theorem failed_send_leaves_watermark_unchanged (history : gmap string Z)
    (handle : string) (p : Post) (rest : list string) :
  SendFailed handle p ∈ (process_handle cfg env history handle).2 →
  (process_handle cfg env history handle).1 = history ∧
  (∃ sent,
     (process_handle cfg env history handle).2 =
       (Sent handle <$> sent) ++ [SendFailed handle p; LogUserError handle]) ∧
  handle_loop cfg env (handle :: rest) history =
    ((handle_loop cfg env rest history).1,
     (process_handle cfg env history handle).2 ++ (handle_loop cfg env rest history).2) ∧
  (∀ (env' : Env) (feed : list Post) (q : Post),
     Tenacity.result (fetch_posts env handle) = Some feed →
     Tenacity.result (fetch_posts env' handle) = Some feed →
     Forall (λ r, send env' r = true) feed →
     Sent handle q ∈ (process_handle cfg env history handle).2 →
     too_old cfg env' (indexed_at q) = false →
     Sent handle q ∈
       (process_handle cfg env' (process_handle cfg env history handle).1 handle).2).
Proof.
  intros Hfail.
  destruct (process_handle_send_failed history handle p Hfail) as (Hh & _ & Htr).
  split; [done|]. split; [done|]. split.
  { simpl. destruct (process_handle cfg env history handle) as [h1 t1].
    simpl in Hh. subst h1. by destruct (handle_loop cfg env rest history). }
  intros env' feed q Hfetch Hfetch' Hsend Hsent Hage. rewrite Hh.
  apply (process_handle_sent_iff cfg env history handle feed) in Hsent; [|done].
  apply post_loop_sent_before in Hsent as ([Hnew _] & l1 & l2 & Hfeed & Hl1).
  apply (process_handle_sent_iff cfg env' history handle feed); [done|].
  rewrite Hfeed. apply post_loop_resends; [done| |].
  - split; [done|]. by apply too_old_false.
  - rewrite <- Hfeed. by apply Forall_reverse.
Qed.

(** C8. When the three attempts of [fetch_posts] for one account raise,
    the sweep logs the error for that account, leaves the history as it
    is at that point, and processes the accounts before and after it
    exactly as if the failing account were not in the list; the sweep
    itself ends normally.  Every other account of the list whose feed
    is fetched (newest first, its posts newer than its watermark and
    within the age threshold, sends returning) has all the posts of
    its feed sent in that sweep and its watermark advanced to the
    instant of its newest post. *)
Theorem fetch_failure_is_isolated (history : gmap string Z)
    (before : list string) (handle : string) (after : list string) :
  channel env = true →
  Tenacity.result (get_list_members env) = Some (before ++ handle :: after) →
  (∀ n, (1 ≤ n ≤ 3)%nat → get_author_feed env handle n = Raised) →
  fetch_posts env handle = Tenacity.mk_run None 3 [4; 4] ∧
  (∀ h, process_handle cfg env h handle = (h, [LogUserError handle])) ∧
  check_subscriptions_updates cfg env history =
    (let '(h1, t1) := handle_loop cfg env before history in
     let '(h2, t2) := handle_loop cfg env after h1 in
     (h2, get_list_members_trace env ++ t1 ++ LogUserError handle :: t2)) ∧
  (∀ (other : string) (feed : list Post) (newest : Post),
     other ∈ before ++ after →
     Tenacity.result (fetch_posts env other) = Some feed →
     newest_first feed →
     head feed = Some newest →
     Forall (eligible cfg env (history !! other)) feed →
     Forall (λ p, send env p = true) feed →
     (∀ p, p ∈ feed →
           Sent other p ∈ (check_subscriptions_updates cfg env history).2) ∧
     (check_subscriptions_updates cfg env history).1 !! other
       = Some (indexed_at newest)).
Proof.
  intros Hchan Hlist Hdown.
  pose proof (fetch_posts_exhausted env handle Hdown) as Hfetch.
  assert (∀ h, process_handle cfg env h handle = (h, [LogUserError handle])) as Hskip.
  { intros h. unfold process_handle. by rewrite Hfetch. }
  assert (before ++ handle :: after ≠ []) as Hne by by destruct before.
  split; [done|]. split; [done|].
  rewrite (sweep_members cfg env history _ Hchan Hlist Hne). split.
  - rewrite handle_loop_app. destruct (handle_loop cfg env before history) as [h1 t1].
    simpl. rewrite Hskip. by destruct (handle_loop cfg env after h1).
  - intros other feed newest Hin Hf Hsorted Hhead Hel Hsend.
    destruct (handle_loop_processes cfg env (before ++ handle :: after) history
                other feed newest) as [Hall Hw]; try done.
    { apply elem_of_app in Hin as [?|?]; apply elem_of_app; [by left|].
      right. apply elem_of_cons. by right. }
    split; [|done]. intros q Hq. apply elem_of_app. right. by apply Hall.
Qed.

End failures.

(** Evaluate the trace a membership goal is about. *)
Ltac eval_trace :=
  match goal with
  | |- _ ∈ ?t => let v := eval vm_compute in t in change t with v
  end.

Lemma failed_send_witness :
  ((process_handle sample_cfg
      (sample_env (λ _, Returned [P2; P1]) fails_on_P2 (at_minute 606)) ∅ "alice").1 = ∅ ∧
   (∃ sent,
      (process_handle sample_cfg
         (sample_env (λ _, Returned [P2; P1]) fails_on_P2 (at_minute 606)) ∅ "alice").2 =
        (Sent "alice" <$> sent) ++ [SendFailed "alice" P2; LogUserError "alice"]) ∧
   handle_loop sample_cfg
     (sample_env (λ _, Returned [P2; P1]) fails_on_P2 (at_minute 606)) ["alice"; "bob"] ∅ =
     ((handle_loop sample_cfg
         (sample_env (λ _, Returned [P2; P1]) fails_on_P2 (at_minute 606)) ["bob"] ∅).1,
      (process_handle sample_cfg
         (sample_env (λ _, Returned [P2; P1]) fails_on_P2 (at_minute 606)) ∅ "alice").2 ++
      (handle_loop sample_cfg
         (sample_env (λ _, Returned [P2; P1]) fails_on_P2 (at_minute 606)) ["bob"] ∅).2)) ∧
  Sent "alice" P1 ∈
    (process_handle sample_cfg
       (sample_env (λ _, Returned [P2; P1]) all_sent (at_minute 607))
       (process_handle sample_cfg
          (sample_env (λ _, Returned [P2; P1]) fails_on_P2 (at_minute 606)) ∅ "alice").1
       "alice").2.
Proof.
  assert (SendFailed "alice" P2 ∈
            (process_handle sample_cfg
               (sample_env (λ _, Returned [P2; P1]) fails_on_P2 (at_minute 606))
               ∅ "alice").2) as Hfail.
  { eval_trace. rewrite !elem_of_cons. right. by left. }
  destruct (failed_send_leaves_watermark_unchanged sample_cfg
              (sample_env (λ _, Returned [P2; P1]) fails_on_P2 (at_minute 606))
              ∅ "alice" P2 ["bob"] Hfail) as (Hkeep & Htrace & Hloop & Hagain).
  split; [by repeat split|].
  apply (Hagain (sample_env (λ _, Returned [P2; P1]) all_sent (at_minute 607))
                [P2; P1] P1).
  - reflexivity.
  - reflexivity.
  - repeat constructor.
  - eval_trace. rewrite !elem_of_cons. by left.
  - vm_compute. reflexivity.
Defined.

(** C1 as worded fails: [P1] is sent, the send of [P2] raises, and the
    sweep ends with no watermark at all for the handle, so that no
    advance covers the post that was delivered. *)
Lemma partial_delivery_commits_no_watermark :
  sent_posts (check_subscriptions_updates sample_cfg
     (sample_env (λ h, Returned (if decide (h = "alice") then [P2; P1] else []))
        fails_on_P2 (at_minute 606)) ∅).2 = [P1] ∧
  SendFailed "alice" P2 ∈ (check_subscriptions_updates sample_cfg
     (sample_env (λ h, Returned (if decide (h = "alice") then [P2; P1] else []))
        fails_on_P2 (at_minute 606)) ∅).2 ∧
  ¬ (∃ w, (check_subscriptions_updates sample_cfg
     (sample_env (λ h, Returned (if decide (h = "alice") then [P2; P1] else []))
        fails_on_P2 (at_minute 606)) ∅).1 !! "alice" = Some w ∧ indexed_at P1 ≤ w).
Proof.
  split; [vm_compute; reflexivity|]. split.
  { eval_trace. rewrite !elem_of_cons. right. right. by left. }
  intros (w & Hw & _). vm_compute in Hw. discriminate.
Qed.

Lemma fetch_failure_witness :
  (fetch_posts isolation_env "bob" = Tenacity.mk_run None 3 [4; 4] ∧
   (∀ h, process_handle sample_cfg isolation_env h "bob" = (h, [LogUserError "bob"])) ∧
   check_subscriptions_updates sample_cfg isolation_env ∅ =
     (let '(h1, t1) := handle_loop sample_cfg isolation_env ["alice"] ∅ in
      let '(h2, t2) := handle_loop sample_cfg isolation_env ["carol"] h1 in
      (h2, get_list_members_trace isolation_env ++ t1 ++ LogUserError "bob" :: t2))) ∧
  ((∀ p, p ∈ [P1] →
         Sent "alice" p ∈ (check_subscriptions_updates sample_cfg isolation_env ∅).2) ∧
   (check_subscriptions_updates sample_cfg isolation_env ∅).1 !! "alice"
     = Some (indexed_at P1)) ∧
  ((∀ p, p ∈ [P2] →
         Sent "carol" p ∈ (check_subscriptions_updates sample_cfg isolation_env ∅).2) ∧
   (check_subscriptions_updates sample_cfg isolation_env ∅).1 !! "carol"
     = Some (indexed_at P2)).
Proof.
  destruct (fetch_failure_is_isolated sample_cfg isolation_env ∅
              ["alice"] "bob" ["carol"] eq_refl eq_refl (λ n _, eq_refl))
    as (Hfetch & Hskip & Hsweep & Hothers).
  split; [by repeat split|]. split.
  - apply (Hothers "alice" [P1] P1).
    + simpl. rewrite !elem_of_cons. by left.
    + reflexivity.
    + repeat constructor.
    + reflexivity.
    + repeat constructor. vm_compute. congruence.
    + repeat constructor.
  - apply (Hothers "carol" [P2] P2).
    + simpl. rewrite !elem_of_cons. right. by left.
    + reflexivity.
    + repeat constructor.
    + reflexivity.
    + repeat constructor. vm_compute. congruence.
    + repeat constructor.
Defined.

(** The sweep of the isolation scenario: the fetch for bob fails, the
    posts of alice and carol are sent and their watermarks advance. *)
Example isolation_scenario :
  let r := check_subscriptions_updates sample_cfg
    (sample_env (λ h, if decide (h = "bob") then Raised
                      else if decide (h = "alice") then Returned [P1] else Returned [P2])
       all_sent (at_minute 606)) ∅ in
  sent_posts r.2 = [P1; P2] ∧
  r.1 !! "alice" = Some (at_minute 600) ∧
  r.1 !! "bob" = None ∧
  r.1 !! "carol" = Some (at_minute 605).
Proof. vm_compute. repeat split. Qed.

(** ** Loading the history *)

Section load.
Context (json_loads : string → option (gmap string Z)).

Lemma load_history_fallback file :
  load_fails json_loads file → load_history json_loads file = ∅.
Proof. destruct file; simpl; try done. by intros ->. Qed.

(** C9, as the code has it.  [load_history] is a total function; when
    the file is missing, unreadable or not JSON it returns the empty
    map.  The sweep that follows finds no watermark for any handle: from
    a feed that is newest first, with sends that return, it sends every
    post within the age threshold; in any feed, a post is sent only if
    it is strictly newer than the posts sent before it in the pass. *)
Theorem load_history_falls_back_to_empty (file : history_file)
    (cfg : Config) (env : Env) (handle : string) (feed : list Post) :
  load_fails json_loads file →
  load_history json_loads file = ∅ ∧
  load_history json_loads file !! handle = None ∧
  StronglySorted older
    (attempted_posts (process_handle cfg env (load_history json_loads file) handle).2) ∧
  (Tenacity.result (fetch_posts env handle) = Some feed →
   newest_first feed →
   Forall (λ p, send env p = true) feed →
   sent_posts (process_handle cfg env (load_history json_loads file) handle).2
     = reverse (filter (λ p, current_time env - indexed_at p ≤ POST_AGE_THRESHOLD cfg)
                       feed)).
Proof.
  intros Hfail. rewrite load_history_fallback by done.
  split; [done|]. split; [done|]. split.
  { apply process_handle_increasing. }
  intros Hfetch Hsorted Hsend.
  destruct (process_handle_chronological cfg env ∅ handle feed) as (-> & _ & _); try done.
  f_equal. apply list_filter_iff. intros p. unfold eligible.
  rewrite lookup_empty. tauto.
Qed.

End load.

Lemma load_history_witness :
  load_history (λ _, None) (Content "{") = ∅ ∧
  load_history (λ _, None) (Content "{") !! "alice" = None ∧
  StronglySorted older
    (attempted_posts (process_handle sample_cfg
       (sample_env (λ _, Returned [P3; P2; P1]) all_sent (at_minute 661))
       (load_history (λ _, None) (Content "{")) "alice").2) ∧
  (Tenacity.result (fetch_posts
      (sample_env (λ _, Returned [P3; P2; P1]) all_sent (at_minute 661)) "alice")
     = Some [P3; P2; P1] →
   newest_first [P3; P2; P1] →
   Forall (λ p, all_sent p = true) [P3; P2; P1] →
   sent_posts (process_handle sample_cfg
       (sample_env (λ _, Returned [P3; P2; P1]) all_sent (at_minute 661))
       (load_history (λ _, None) (Content "{")) "alice").2
     = reverse (filter (λ p, at_minute 661 - indexed_at p ≤ POST_AGE_THRESHOLD sample_cfg)
                       [P3; P2; P1])).
Proof.
  apply (load_history_falls_back_to_empty (λ _, None) (Content "{") sample_cfg
           (sample_env (λ _, Returned [P3; P2; P1]) all_sent (at_minute 661))
           "alice" [P3; P2; P1]).
  reflexivity.
Defined.

(** C9 as worded fails: after a failed load, two posts within the age
    threshold carry the same instant; the first one visited is sent and
    the other is skipped as already seen. *)
Lemma failed_load_not_every_post_new :
  load_fails (λ _, None) Missing ∧
  Forall (λ p, too_old sample_cfg
                 (sample_env (λ _, Returned [P2b; P2]) all_sent (at_minute 606))
                 (indexed_at p) = false) [P2b; P2] ∧
  sent_posts (process_handle sample_cfg
     (sample_env (λ _, Returned [P2b; P2]) all_sent (at_minute 606))
     (load_history (λ _, None) Missing) "alice").2 = [P2] ∧
  ¬ (∀ p, p ∈ [P2b; P2] →
          p ∈ sent_posts (process_handle sample_cfg
     (sample_env (λ _, Returned [P2b; P2]) all_sent (at_minute 606))
     (load_history (λ _, None) Missing) "alice").2).
Proof.
  split; [done|]. split; [by repeat constructor|].
  assert (sent_posts (process_handle sample_cfg
     (sample_env (λ _, Returned [P2b; P2]) all_sent (at_minute 606))
     (load_history (λ _, None) Missing) "alice").2 = [P2]) as Hsent
    by (vm_compute; reflexivity).
  split; [done|]. rewrite Hsent. intros Hall.
  specialize (Hall P2b ltac:(rewrite elem_of_cons; by left)).
  apply list_elem_of_singleton in Hall. discriminate.
Qed.

(** ** More on the rate limiter *)

Section rate_limiter_runs.
Import RateLimiter.

Lemma in_window_length now cs : (length (in_window now cs) ≤ length cs)%nat.
Proof. unfold in_window. apply length_filter. Qed.

Lemma acquire_budget_kept now rl :
  calls_per_minute (acquire now rl).1 = calls_per_minute rl.
Proof.
  unfold acquire. case_decide; [|done].
  by destruct (min_call (in_window now (calls rl))).
Qed.

Lemma acquire_length now rl :
  (length (calls (acquire now rl).1) ≤ S (length (calls rl)))%nat.
Proof.
  pose proof (in_window_length now (calls rl)).
  unfold acquire. case_decide.
  - destruct (min_call (in_window now (calls rl))); simpl;
      rewrite ?length_app; simpl; lia.
  - simpl. rewrite length_app. simpl. lia.
Qed.

Lemma acquire_outcomes_below (clock : list Z) (rl : t) :
  Z.of_nat (length (calls rl)) + Z.of_nat (length clock) ≤ calls_per_minute rl →
  Forall (λ o, o = Acquired None) (acquire_outcomes clock rl).
Proof.
  revert rl. induction clock as [|now clock IH]; intros rl Hle; simpl; [constructor|].
  simpl in Hle. pose proof (in_window_length now (calls rl)) as Hlen.
  constructor.
  - unfold acquire. rewrite decide_False by lia. done.
  - apply IH. rewrite acquire_budget_kept.
    pose proof (acquire_length now rl). lia.
Qed.

(** A limiter that starts empty lets its first B calls through without
    any sleep, whatever the clock readings. *)
Theorem fresh_limiter_admits_budget (budget : Z) (clock : list Z) :
  Z.of_nat (length clock) ≤ budget →
  Forall (λ o, o = Acquired None) (acquire_outcomes clock (init budget)).
Proof. intros Hle. apply acquire_outcomes_below. simpl. lia. Qed.

Lemma fresh_limiter_admits_budget_witness :
  Forall (λ o, o = Acquired None) (acquire_outcomes [0; 5; 5] (init 3)).
Proof. apply (fresh_limiter_admits_budget 3 [0; 5; 5]). simpl. lia. Defined.

Lemma acquire_outcomes_no_budget (clock : list Z) (rl : t) :
  calls_per_minute rl ≤ 0 → calls rl = [] →
  Forall (λ o, o = RaisedValueError) (acquire_outcomes clock rl).
Proof.
  revert rl. induction clock as [|now clock IH]; intros rl Hb Hcs; simpl; [constructor|].
  assert (acquire now rl = (mk (calls_per_minute rl) [], RaisedValueError)) as Hacq.
  { unfold acquire. rewrite Hcs. simpl. rewrite decide_True by lia. done. }
  rewrite Hacq. constructor; [done|]. by apply IH.
Qed.

(** A limiter built with a budget of zero or less never lets a call
    through: every [acquire] raises [ValueError] ([min] of an empty
    window), the first one and all that follow. *)
Theorem limiter_without_budget_always_raises (budget : Z) (clock : list Z) :
  budget ≤ 0 →
  Forall (λ o, o = RaisedValueError) (acquire_outcomes clock (init budget)).
Proof. intros Hb. by apply acquire_outcomes_no_budget. Qed.

Lemma limiter_without_budget_witness :
  Forall (λ o, o = RaisedValueError) (acquire_outcomes [0; 1; 2] (init 0)).
Proof. apply (limiter_without_budget_always_raises 0 [0; 1; 2]). lia. Defined.

(** When the clock has stepped back, so that the oldest reading of the
    window lies in the future of [now] by up to 86340 seconds, the
    [.seconds] of the negative difference is 60 or more and the computed
    wait is zero or negative: the call goes through at once although
    the budget is used up. *)
Theorem backward_clock_disables_throttling (rl : RateLimiter.t) (now oldest : Z) :
  calls_per_minute rl ≤ Z.of_nat (length (in_window now (calls rl))) →
  min_call (in_window now (calls rl)) = Some oldest →
  now < oldest ≤ now + 86340000000 →
  ∃ wait_time,
    acquire now rl =
      (mk (calls_per_minute rl) (in_window now (calls rl) ++ [now]),
       Acquired (Some wait_time)) ∧
    wait_time ≤ 0 ∧
    admission_time now (Some wait_time) = now.
Proof.
  intros Hfull Hmin Hfuture.
  exists (60 - Datetime.seconds (now - oldest)).
  assert (60 ≤ Datetime.seconds (now - oldest)) as Hsec.
  { unfold Datetime.seconds.
    replace ((now - oldest) `mod` 86400000000)
      with (now - oldest + 86400000000).
    - apply Z.div_le_lower_bound; lia.
    - apply Z.mod_unique with (q := -1); lia. }
  split; [|split].
  - unfold acquire. rewrite decide_True by done. by rewrite Hmin.
  - lia.
  - unfold admission_time, Datetime.timedelta_seconds.
    rewrite Z.max_l by lia. lia.
Qed.

Lemma backward_clock_witness :
  ∃ wait_time,
    acquire 0 (mk 1 [30000000]) =
      (mk 1 (in_window 0 [30000000] ++ [0]), Acquired (Some wait_time)) ∧
    wait_time ≤ 0 ∧
    admission_time 0 (Some wait_time) = 0.
Proof.
  apply (backward_clock_disables_throttling (mk 1 [30000000]) 0 30000000).
  - vm_compute. discriminate.
  - reflexivity.
  - lia.
Defined.

End rate_limiter_runs.

(** ** More on the retry of fetch_posts *)

(** [fetch_posts] gives the answer of the first of its three attempts
    that does not raise, after one 4-second wait per failed attempt; it
    raises only when all three attempts raise. *)
Theorem fetch_posts_first_success (env : Env) (handle : string) (feed : list Post) :
  Tenacity.result (fetch_posts env handle) = Some feed ↔
  ∃ n, (1 ≤ n ≤ 3)%nat ∧
       get_author_feed env handle n = Returned feed ∧
       (∀ m, (1 ≤ m < n)%nat → get_author_feed env handle m = Raised) ∧
       Tenacity.attempts (fetch_posts env handle) = n ∧
       Tenacity.sleeps (fetch_posts env handle) = replicate (n - 1) 4.
Proof.
  unfold fetch_posts, Tenacity.retry, retry_stop. simpl. split.
  - destruct (get_author_feed env handle 1) as [f1|] eqn:H1; simpl.
    { intros [= ->]. exists 1%nat. repeat split; try done; try lia.
      all: intros m Hm; lia. }
    destruct (get_author_feed env handle 2) as [f2|] eqn:H2; simpl.
    { intros [= ->]. exists 2%nat. repeat split; try done; try lia.
      all: intros m Hm; by replace m with 1%nat by lia. }
    destruct (get_author_feed env handle 3) as [f3|] eqn:H3; simpl; [|done].
    intros [= ->]. exists 3%nat. repeat split; try done; try lia.
    all: intros m Hm; assert (m = 1 ∨ m = 2)%nat as [->| ->] by lia; done.
  - intros (n & Hn & Hret & Hbefore & _ & _).
    assert (n = 1 ∨ n = 2 ∨ n = 3)%nat as [->|[->| ->]] by lia.
    + by rewrite Hret.
    + rewrite (Hbefore 1%nat) by lia. by rewrite Hret.
    + rewrite (Hbefore 1%nat), (Hbefore 2%nat) by lia. by rewrite Hret.
Qed.

(** ** More on the sweep *)

Section sweep_properties.
Context (cfg : Config) (env : Env).

(** A sweep writes only the entries of the handles the list resolves
    to: every other entry of the history, such as that of an account
    dropped from the list, is read back unchanged. *)
Theorem sweep_touches_only_members (history : gmap string Z)
    (handles : list string) (k : string) :
  Tenacity.result (get_list_members env) = Some handles →
  k ∉ handles →
  (check_subscriptions_updates cfg env history).1 !! k = history !! k.
Proof.
  intros Hlist Hk. rewrite sweep_unfold.
  destruct (channel env); [|done]. rewrite Hlist.
  destruct handles as [|h hs]; [done|]. by apply handle_loop_other.
Qed.

(** When the channel is not found, or the call of [get_list] raises, or
    it answers no item with a handle, the sweep fetches no feed, sends
    nothing, writes nothing and leaves the history as it is.  It logs
    one line when the channel is missing, and otherwise two: the line
    of [get_list_members] (the error, the warning for an empty answer,
    or the count, which is 0) and then the warning that no handle was
    found. *)
Theorem sweep_without_members_is_idle (history : gmap string Z) :
  channel env = false ∨ get_list env 1 = Raised ∨
    (∃ items, get_list env 1 = Returned items ∧ Forall (λ i, i = None) items) →
  (check_subscriptions_updates cfg env history).1 = history ∧
  (check_subscriptions_updates cfg env history).2 =
    if channel env then
      match get_list env 1 with
      | Raised => [LogListError; LogNoHandles]
      | Returned [] => [LogNoMembers; LogNoHandles]
      | Returned (_ :: _) => [LogFoundMembers 0; LogNoHandles]
      end
    else [LogNoChannel].
Proof.
  intros Hcase. rewrite sweep_unfold.
  destruct (channel env) eqn:Hchan; [|done].
  destruct Hcase as [?|Hcase]; [done|].
  rewrite get_list_members_trace_single, get_list_members_single_attempt. simpl.
  destruct Hcase as [->|(items & -> & Hnone)]; [done|].
  assert (omap id items = []) as Hnil.
  { induction Hnone as [|i items -> _ IH]; [done|]. exact IH. }
  simpl. rewrite Hnil. by destruct items.
Qed.

(** Whatever a sweep sends was asked for and is fresh: the post goes
    out under a handle of the resolved list, it is not older than the
    age threshold, and it is strictly newer than the watermark that
    handle had when the sweep began. *)
Theorem sweep_sends_only_fresh_posts (history : gmap string Z)
    (h : string) (p : Post) :
  Sent h p ∈ (check_subscriptions_updates cfg env history).2 →
  (∃ handles, Tenacity.result (get_list_members env) = Some handles ∧ h ∈ handles) ∧
  current_time env - indexed_at p ≤ POST_AGE_THRESHOLD cfg ∧
  match history !! h with
  | Some w => w < indexed_at p
  | None => True
  end.
Proof.
  assert (∀ t, Sent h p ∈ get_list_members_trace env ++ t → Sent h p ∈ t) as Hlog.
  { intros t [Hin|?]%elem_of_app; [|done].
    apply get_list_members_trace_quiet in Hin as [?|[?|[n ?]]]; discriminate. }
  rewrite sweep_unfold.
  destruct (channel env);
    [|intros H; apply list_elem_of_singleton in H; discriminate].
  destruct (Tenacity.result (get_list_members env)) as [[|h0 hs]|] eqn:Hlist;
    [intros H%Hlog; apply list_elem_of_singleton in H; discriminate
    | |intros H%Hlog; apply list_elem_of_singleton in H; discriminate].
  intros [Hin [Hnew Hage]]%Hlog%handle_loop_sent_event. eauto.
Qed.

End sweep_properties.

Lemma sweep_touches_only_members_witness :
  (check_subscriptions_updates sample_cfg
     (sample_env (λ _, Returned [P2; P1]) all_sent (at_minute 606))
     {[ "dave" := at_minute 1 ]}).1 !! "dave"
  = ({[ "dave" := at_minute 1 ]} : gmap string Z) !! "dave".
Proof.
  apply (sweep_touches_only_members sample_cfg
           (sample_env (λ _, Returned [P2; P1]) all_sent (at_minute 606))
           {[ "dave" := at_minute 1 ]} ["alice"; "bob"; "carol"] "dave").
  - reflexivity.
  - intros H. repeat (apply elem_of_cons in H as [H|H]; [discriminate|]).
    by apply elem_of_nil in H.
Defined.

Lemma sweep_without_members_witness :
  (check_subscriptions_updates sample_cfg flaky_list_env {[ "alice" := at_minute 1 ]}).1
    = {[ "alice" := at_minute 1 ]} ∧
  (check_subscriptions_updates sample_cfg flaky_list_env {[ "alice" := at_minute 1 ]}).2
    = [LogListError; LogNoHandles].
Proof.
  apply (sweep_without_members_is_idle sample_cfg flaky_list_env).
  right. left. reflexivity.
Defined.

Lemma sweep_sends_only_fresh_witness :
  (∃ handles,
     Tenacity.result (get_list_members
       (sample_env (λ _, Returned [P2; P1]) all_sent (at_minute 606))) = Some handles ∧
     "bob" ∈ handles) ∧
  current_time (sample_env (λ _, Returned [P2; P1]) all_sent (at_minute 606))
    - indexed_at P2 ≤ POST_AGE_THRESHOLD sample_cfg ∧
  match ({[ "bob" := at_minute 600 ]} : gmap string Z) !! "bob" with
  | Some w => w < indexed_at P2
  | None => True
  end.
Proof.
  apply (sweep_sends_only_fresh_posts sample_cfg
           (sample_env (λ _, Returned [P2; P1]) all_sent (at_minute 606))
           {[ "bob" := at_minute 600 ]} "bob" P2).
  eval_trace. rewrite !elem_of_cons. do 4 right. by left.
Defined.

Section passes.
Context (cfg : Config).

Lemma already_seen_mono a b t :
  watermark_le a b → already_seen a t = true → already_seen b t = true.
Proof.
  destruct a as [x|], b as [y|]; simpl; try done.
  intros Hle Hs%bool_decide_eq_true. apply bool_decide_eq_true. lia.
Qed.

Lemma too_old_later env env' t :
  current_time env ≤ current_time env' →
  too_old cfg env t = true → too_old cfg env' t = true.
Proof.
  unfold too_old. intros Hle Ht%bool_decide_eq_true. apply bool_decide_eq_true. lia.
Qed.

(** A pass that attempts nothing: every post is too old or not newer
    than the watermark. *)
Lemma post_loop_quiet env handle posts nt :
  Forall (λ p, too_old cfg env (indexed_at p) = true ∨
               already_seen nt (indexed_at p) = true) posts →
  post_loop cfg env handle posts nt = Completed nt [].
Proof.
  induction 1 as [|p posts Hp _ IH]; simpl; [done|].
  destruct (too_old cfg env (indexed_at p)); [done|].
  destruct Hp as [? | ->]; done.
Qed.

(** What a completed pass leaves behind: nothing that a pass from its
    final [newest_time] would send. *)
Lemma post_loop_leaves_nothing env handle posts newest nt tr :
  post_loop cfg env handle posts newest = Completed nt tr →
  Forall (λ p, too_old cfg env (indexed_at p) = true ∨
               already_seen nt (indexed_at p) = true) posts.
Proof.
  revert newest nt tr. induction posts as [|p posts IH]; intros newest nt tr; simpl;
    [constructor|].
  destruct (too_old cfg env (indexed_at p)) eqn:Hold.
  { intros H. constructor; [by left|by eapply IH]. }
  destruct (already_seen newest (indexed_at p)) eqn:Hseen.
  { intros H. constructor; [|by eapply IH]. right.
    eapply already_seen_mono; [|done]. by eapply post_loop_newest_mono. }
  destruct (send env p); [|done].
  destruct (post_loop cfg env handle posts (bump newest (indexed_at p)))
    as [nt' tr'|tr'] eqn:Hrest; simpl; [|done].
  intros [= <- _]. constructor; [|by eapply IH]. right.
  apply post_loop_newest_mono in Hrest. rewrite bump_fresh in Hrest by done.
  destruct nt' as [n|]; simpl in *; [|done]. apply bool_decide_eq_true. lia.
Qed.

Lemma post_loop_all_sent env handle posts newest :
  Forall (λ p, send env p = true) posts →
  ∃ nt tr, post_loop cfg env handle posts newest = Completed nt tr.
Proof.
  intros Hsend. pose proof (post_loop_shape cfg env handle posts newest) as Hshape.
  destruct (post_loop cfg env handle posts newest) as [nt tr|tr]; [eauto|].
  destruct Hshape as (ps & q & _ & Hq & Hfail).
  rewrite Forall_forall in Hsend. specialize (Hsend q Hq). congruence.
Qed.

(** The final [newest_time] of a completed pass is the instant of the
    last post it sent, or the one it started from when it sent none. *)
Lemma post_loop_final env handle posts newest nt tr :
  post_loop cfg env handle posts newest = Completed nt tr →
  nt = match last (sent_posts tr) with
       | Some p => Some (indexed_at p)
       | None => newest
       end.
Proof.
  revert newest nt tr. induction posts as [|p posts IH]; intros newest nt tr; simpl.
  - by intros [= <- <-].
  - destruct (too_old cfg env (indexed_at p)); [apply IH|].
    destruct (already_seen newest (indexed_at p)) eqn:Hseen; [apply IH|].
    destruct (send env p); [|done].
    destruct (post_loop cfg env handle posts (bump newest (indexed_at p)))
      as [nt' tr'|tr'] eqn:Hrest; simpl; [|done].
    intros [= <- <-]. apply IH in Hrest. rewrite bump_fresh in Hrest by done.
    change (sent_posts (Sent handle p :: tr')) with (p :: sent_posts tr').
    rewrite last_cons. by destruct (last (sent_posts tr')).
Qed.

(** Running the pass of a handle again on the same feed, at the same
    or a later clock reading, after a pass in which every send
    returned: nothing is sent and the history does not change. *)
Theorem repeated_pass_sends_nothing (env env' : Env) (history : gmap string Z)
    (handle : string) (feed : list Post) :
  Tenacity.result (fetch_posts env handle) = Some feed →
  Tenacity.result (fetch_posts env' handle) = Some feed →
  current_time env ≤ current_time env' →
  Forall (λ p, send env p = true) feed →
  attempted_posts
    (process_handle cfg env' (process_handle cfg env history handle).1 handle).2 = [] ∧
  (process_handle cfg env' (process_handle cfg env history handle).1 handle).1
    = (process_handle cfg env history handle).1.
Proof.
  intros Hfetch Hfetch' Hclock Hsend.
  rewrite (process_handle_fetched cfg env' _ handle feed) by done.
  rewrite (process_handle_fetched cfg env history handle feed) by done.
  destruct feed as [|p0 feed0]; [done|]. set (feed := p0 :: feed0) in *.
  destruct (post_loop_all_sent env handle (reverse feed) (history !! handle))
    as (nt & tr & Hloop); [by apply Forall_reverse|].
  rewrite Hloop.
  pose proof (post_loop_leaves_nothing _ _ _ _ _ _ Hloop) as Hleft.
  assert (post_loop cfg env' handle (reverse feed) nt = Completed nt []) as Hquiet.
  { apply post_loop_quiet. eapply Forall_impl; [exact Hleft|].
    intros p [?|?]; [left; by eapply too_old_later|by right]. }
  destruct nt as [n|]; simpl.
  - rewrite lookup_insert_eq, Hquiet. simpl. split; [done|].
    by rewrite insert_insert_eq.
  - apply post_loop_newest_mono in Hloop.
    destruct (history !! handle) eqn:Hw; [done|]. by rewrite Hquiet.
Qed.

(** After a pass in which every send returned and at least one post
    went out, the handle's watermark is the instant of the last post
    sent, and no post sent in the pass is later than it. *)
Theorem watermark_is_last_post_sent (env : Env) (history : gmap string Z)
    (handle : string) (feed : list Post) (p : Post) :
  Tenacity.result (fetch_posts env handle) = Some feed →
  Forall (λ q, send env q = true) feed →
  last (sent_posts (process_handle cfg env history handle).2) = Some p →
  (process_handle cfg env history handle).1 !! handle = Some (indexed_at p) ∧
  Forall (λ q, indexed_at q ≤ indexed_at p)
         (sent_posts (process_handle cfg env history handle).2).
Proof.
  intros Hfetch Hsend.
  pose proof (process_handle_increasing cfg env history handle) as Hinc.
  revert Hinc. rewrite (process_handle_fetched cfg env history handle feed) by done.
  destruct feed as [|p0 feed0]; [done|]. set (feed := p0 :: feed0) in *.
  destruct (post_loop_all_sent env handle (reverse feed) (history !! handle))
    as (nt & tr & Hloop); [by apply Forall_reverse|].
  rewrite Hloop. pose proof (post_loop_final _ _ _ _ _ _ Hloop) as Hfinal.
  pose proof (post_loop_shape cfg env handle (reverse feed) (history !! handle)) as Hshape.
  rewrite Hloop in Hshape. destruct Hshape as [ps ->].
  rewrite sent_posts_Sent in Hfinal.
  destruct nt as [n|]; simpl.
  - rewrite sent_posts_app, attempted_posts_app, sent_posts_Sent, attempted_posts_Sent.
    unfold sent_posts at 1 2, attempted_posts at 1. simpl. rewrite !app_nil_r.
    intros Hinc Hlast. rewrite Hlast in Hfinal. injection Hfinal as ->.
    split; [by rewrite lookup_insert_eq|]. by apply sorted_last_is_max.
  - rewrite sent_posts_Sent, attempted_posts_Sent. intros Hinc Hlast.
    rewrite Hlast in Hfinal. done.
Qed.

End passes.

Lemma repeated_pass_witness :
  attempted_posts
    (process_handle sample_cfg
       (sample_env (λ _, Returned [P2; P1]) all_sent (at_minute 607))
       (process_handle sample_cfg
          (sample_env (λ _, Returned [P2; P1]) all_sent (at_minute 606)) ∅ "alice").1
       "alice").2 = [] ∧
  (process_handle sample_cfg
     (sample_env (λ _, Returned [P2; P1]) all_sent (at_minute 607))
     (process_handle sample_cfg
        (sample_env (λ _, Returned [P2; P1]) all_sent (at_minute 606)) ∅ "alice").1
     "alice").1
  = (process_handle sample_cfg
       (sample_env (λ _, Returned [P2; P1]) all_sent (at_minute 606)) ∅ "alice").1.
Proof.
  apply (repeated_pass_sends_nothing sample_cfg
           (sample_env (λ _, Returned [P2; P1]) all_sent (at_minute 606))
           (sample_env (λ _, Returned [P2; P1]) all_sent (at_minute 607))
           ∅ "alice" [P2; P1]).
  - reflexivity.
  - reflexivity.
  - vm_compute. discriminate.
  - repeat constructor.
Defined.

Lemma watermark_is_last_post_witness :
  (process_handle sample_cfg
     (sample_env (λ _, Returned [P1; P2]) all_sent (at_minute 606)) ∅ "alice").1
    !! "alice" = Some (indexed_at P2) ∧
  Forall (λ q, indexed_at q ≤ indexed_at P2)
    (sent_posts (process_handle sample_cfg
       (sample_env (λ _, Returned [P1; P2]) all_sent (at_minute 606)) ∅ "alice").2).
Proof.
  apply (watermark_is_last_post_sent sample_cfg
           (sample_env (λ _, Returned [P1; P2]) all_sent (at_minute 606))
           ∅ "alice" [P1; P2] P2).
  - reflexivity.
  - repeat constructor.
  - vm_compute. reflexivity.
Defined.

(** ** The history file during a sweep *)

Section history_file.
Context (json_dumps : gmap string Z → string) (cfg : Config) (env : Env).

Lemma file_after_app t1 t2 file :
  file_after json_dumps (t1 ++ t2) file =
  file_after json_dumps t2 (file_after json_dumps t1 file).
Proof. apply foldl_app. Qed.

Lemma file_after_sends handle (ps : list Post) file :
  file_after json_dumps (Sent handle <$> ps) file = file.
Proof. revert file. induction ps as [|p ps IH]; intros file; [done|]. apply IH. Qed.

Lemma process_handle_file history handle :
  file_after json_dumps (process_handle cfg env history handle).2
             (save_history json_dumps history)
  = save_history json_dumps (process_handle cfg env history handle).1.
Proof.
  unfold process_handle.
  destruct (Tenacity.result (fetch_posts env handle)) as [[|p0 feed0]|]; [done| |done].
  pose proof (post_loop_shape cfg env handle (reverse (p0 :: feed0)) (history !! handle))
    as Hshape.
  destruct (post_loop cfg env handle (reverse (p0 :: feed0)) (history !! handle))
    as [[nt|] tr|tr]; simpl.
  - destruct Hshape as [ps ->]. by rewrite file_after_app, file_after_sends.
  - destruct Hshape as [ps ->]. by rewrite file_after_sends.
  - destruct Hshape as (ps & q & -> & _).
    by rewrite !file_after_app, file_after_sends.
Qed.

Lemma handle_loop_file handles history :
  file_after json_dumps (handle_loop cfg env handles history).2
             (save_history json_dumps history)
  = save_history json_dumps (handle_loop cfg env handles history).1.
Proof.
  revert history. induction handles as [|handle rest IH]; intros history; simpl; [done|].
  pose proof (process_handle_file history handle) as H1.
  destruct (process_handle cfg env history handle) as [h1 t1].
  specialize (IH h1). destruct (handle_loop cfg env rest h1) as [h2 t2].
  simpl in *. by rewrite file_after_app, H1.
Qed.

(** When the file holds the dump of the history at the start of a
    sweep and the writes of the sweep succeed, it holds the dump of the
    history at the end of the sweep: each change of an entry is written
    out, and the last write is the final history. *)
Theorem history_file_follows_memory (history : gmap string Z) (file : history_file) :
  file = save_history json_dumps history →
  file_after json_dumps (check_subscriptions_updates cfg env history).2 file
  = save_history json_dumps (check_subscriptions_updates cfg env history).1.
Proof.
  assert (∀ f, file_after json_dumps (get_list_members_trace env) f = f) as Hlog.
  { intros f. rewrite get_list_members_trace_single. unfold get_list_members_log.
    by destruct (get_list env 1) as [[|i items]|]. }
  intros ->. rewrite sweep_unfold.
  destruct (channel env); [|done].
  destruct (Tenacity.result (get_list_members env)) as [[|h hs]|]; cbn [fst snd];
    rewrite file_after_app, Hlog; [done| |done].
  apply handle_loop_file.
Qed.

End history_file.

Lemma history_file_follows_memory_witness :
  file_after (λ h, pretty (size h))
    (check_subscriptions_updates sample_cfg
       (sample_env (λ _, Returned [P2; P1]) all_sent (at_minute 606)) ∅).2
    (Content "0")
  = save_history (λ h, pretty (size h))
      (check_subscriptions_updates sample_cfg
         (sample_env (λ _, Returned [P2; P1]) all_sent (at_minute 606)) ∅).1.
Proof.
  apply (history_file_follows_memory (λ h, pretty (size h)) sample_cfg
           (sample_env (λ _, Returned [P2; P1]) all_sent (at_minute 606)) ∅ (Content "0")).
  reflexivity.
Defined.

(** ** Splitting at slashes *)

Section text.
Import Str.

Lemma eqb_slash c : Ascii.eqb c slash = true → c = slash.
Proof. apply Ascii.eqb_eq. Qed.

Lemma split_slash_cons s : ∃ part parts, split_slash s = part :: parts.
Proof.
  induction s as [|c s (part & parts & IH)]; simpl; [eauto|].
  destruct (Ascii.eqb c slash); [eauto|]. rewrite IH. eauto.
Qed.

Lemma split_slash_whole s : has_slash s = false → split_slash s = [s].
Proof.
  induction s as [|c s IH]; simpl; [done|].
  destruct (Ascii.eqb c slash); simpl; [done|]. intros Hs. by rewrite IH.
Qed.

(** Splitting around a slash splits each side. *)
Lemma split_slash_app a b :
  split_slash (a +:+ String slash b) = split_slash a ++ split_slash b.
Proof.
  induction a as [|c a IH]; simpl.
  - by rewrite ?Ascii.eqb_refl.
  - destruct (Ascii.eqb c slash); [by rewrite IH|].
    rewrite IH. by destruct (split_slash_cons a) as (part & parts & ->).
Qed.

Lemma split_slash_parts s : Forall (λ part, has_slash part = false) (split_slash s).
Proof.
  induction s as [|c s IH]; simpl; [by repeat constructor|].
  destruct (Ascii.eqb c slash) eqn:Hc; [by constructor|].
  destruct (split_slash s) as [|part parts]; [by repeat constructor; simpl; rewrite Hc|].
  apply Forall_cons in IH as [Hpart Hparts]. constructor; [|done].
  simpl. by rewrite Hc.
Qed.

(** [split] is undone by [join]. *)
Lemma join_split_slash s : join_slash (split_slash s) = s.
Proof.
  unfold join_slash. induction s as [|c s IH]; simpl; [done|].
  destruct (Ascii.eqb c slash) eqn:Hc.
  - apply eqb_slash in Hc as ->.
    destruct (split_slash_cons s) as (part & parts & Hs). rewrite Hs in *.
    rewrite <- IH. reflexivity.
  - destruct (split_slash_cons s) as (part & parts & Hs). rewrite Hs in *.
    destruct parts as [|part' parts]; rewrite <- IH; reflexivity.
Qed.

Lemma startswith_spec p s : startswith p s = true ↔ ∃ rest, s = p +:+ rest.
Proof.
  revert s. induction p as [|a p IH]; intros s; simpl.
  - split; eauto.
  - destruct s as [|b s].
    + split; [done|]. intros [rest Hrest]. discriminate.
    + rewrite andb_true_iff, Ascii.eqb_eq, IH. split.
      * intros [-> [rest ->]]. eauto.
      * intros [rest [= -> ->]]. eauto.
Qed.

End text.

(** ** The list URL *)

(** The shape of the paths that [at_uri_of_path] accepts. *)
Lemma at_uri_of_path_spec (path at_uri : string) :
  at_uri_of_path path = Some at_uri ↔
  ∃ did list_id,
    Str.has_slash did = false ∧ Str.has_slash list_id = false ∧
    path = "/profile/" +:+ did +:+ "/lists/" +:+ list_id ∧
    at_uri = "at://" +:+ did +:+ "/app.bsky.graph.list/" +:+ list_id.
Proof.
  unfold at_uri_of_path. split.
  - destruct (Str.startswith "/profile/" path) eqn:Hstart; [|done].
    apply startswith_spec in Hstart as [rest ->].
    change (Str.split_slash ("/profile/" +:+ rest))
      with (Str.split_slash ("" +:+ String Str.slash ("profile" +:+ String Str.slash rest))).
    rewrite !split_slash_app. simpl.
    pose proof (split_slash_parts rest) as Hparts.
    pose proof (join_split_slash rest) as Hjoin.
    destruct (Str.split_slash rest) as [|did [|part3 [|list_id [|? ?]]]]; try done.
    simpl. destruct (String.eqb part3 "lists") eqn:Hlists; [|done].
    apply String.eqb_eq in Hlists as ->. intros [= <-].
    apply Forall_cons in Hparts as [Hdid Hparts].
    apply Forall_cons in Hparts as [_ Hparts].
    apply Forall_cons in Hparts as [Hid _].
    exists did, list_id. repeat split; try done.
    rewrite <- Hjoin. reflexivity.
  - intros (did & list_id & Hdid & Hid & -> & ->).
    change (Str.startswith "/profile/" ("/profile/" +:+ did +:+ "/lists/" +:+ list_id))
      with (Str.startswith "" (did +:+ "/lists/" +:+ list_id)).
    change ("/profile/" +:+ did +:+ "/lists/" +:+ list_id)
      with ("" +:+ String Str.slash ("profile" +:+ String Str.slash
              (did +:+ String Str.slash ("lists" +:+ String Str.slash list_id)))).
    rewrite !split_slash_app. rewrite (split_slash_whole did), (split_slash_whole list_id) by done.
    reflexivity.
Qed.

(** [at_uri_of_path] accepts exactly the paths
    [/profile/<did>/lists/<list_id>] in which neither part contains a
    slash (either may be empty; a trailing slash or a further segment is
    refused), and it answers
    [at://<did>/app.bsky.graph.list/<list_id>]. *)
Theorem at_uri_of_path_accepts_exactly (path at_uri : string) :
  at_uri_of_path path = Some at_uri ↔
  ∃ did list_id,
    Str.has_slash did = false ∧ Str.has_slash list_id = false ∧
    path = "/profile/" +:+ did +:+ "/lists/" +:+ list_id ∧
    at_uri = "at://" +:+ did +:+ "/app.bsky.graph.list/" +:+ list_id.
Proof. apply at_uri_of_path_spec. Qed.

(** At the start of the module [logger] is not bound yet when the URL
    is converted: a path of the accepted shape gives the URI, and every
    other path ends the start-up with the [NameError] raised inside the
    [except] clause, never with [sys.exit(1)]; once [logger] is bound
    the same paths end with exit status 1. *)
Theorem list_uri_at_startup (path : string) :
  (∃ did list_id,
     Str.has_slash did = false ∧ Str.has_slash list_id = false ∧
     path = "/profile/" +:+ did +:+ "/lists/" +:+ list_id ∧
     BSKY_LIST_URI path = Value ("at://" +:+ did +:+ "/app.bsky.graph.list/" +:+ list_id)) ∨
  ((¬ ∃ did list_id,
       Str.has_slash did = false ∧ Str.has_slash list_id = false ∧
       path = "/profile/" +:+ did +:+ "/lists/" +:+ list_id) ∧
   BSKY_LIST_URI path = NameError ∧
   convert_web_url_to_at_uri true path = SysExit 1).
Proof.
  unfold BSKY_LIST_URI, convert_web_url_to_at_uri.
  destruct (at_uri_of_path path) as [at_uri|] eqn:Huri.
  - left. apply at_uri_of_path_spec in Huri
      as (did & list_id & ? & ? & ? & ->). eauto 10.
  - right. split; [|done]. intros (did & list_id & Hdid & Hid & Hpath).
    assert (at_uri_of_path path =
            Some ("at://" +:+ did +:+ "/app.bsky.graph.list/" +:+ list_id)) as Hsome.
    { apply at_uri_of_path_spec. eauto 10. }
    congruence.
Qed.

(** ** The embed of a post *)

Section embed.

(** From the second image on the loop leaves the main image alone and
    appends one inline field per image with a blob that it gets
    through, numbered by the position of the image in the post. *)
Lemma images_loop_additional did i images embed :
  (1 ≤ i)%nat →
  image (result_embed (images_loop did i images embed)) = image embed ∧
  ∃ extra,
    fields (result_embed (images_loop did i images embed)) = fields embed ++ extra ∧
    length extra = length (blob_links (before_broken images)) ∧
    ∀ k link, before_broken images !! k = Some (Blob link) →
              additional_field did (i + k) link ∈ extra.
Proof.
  revert i embed. induction images as [|img images IH]; intros i embed Hi.
  - split; [done|]. exists []. simpl. rewrite app_nil_r. split; [done|]. split; [done|].
    intros k link Hk. by rewrite lookup_nil in Hk.
  - destruct img as [|link0|]; simpl.
    + destruct (IH (S i) embed) as (Himg & extra & Hfields & Hlen & Hmem); [lia|].
      split; [done|]. exists extra. split; [done|]. split; [done|].
      intros [|k] link Hk; simpl in Hk; [done|].
      replace (i + S k)%nat with (S i + k)%nat by lia. by apply Hmem.
    + assert ((i =? 0)%nat = false) as -> by (apply Nat.eqb_neq; lia).
      destruct (IH (S i) (add_field ("Additional Image " +:+ pretty (i + 1)%nat)
                  ("[View Image](" +:+ construct_image_url link0 did +:+ ")") true embed))
        as (Himg & extra & Hfields & Hlen & Hmem); [lia|].
      split; [by rewrite Himg|].
      exists (additional_field did i link0 :: extra). split; [|split].
      * rewrite Hfields. simpl. by rewrite <- app_assoc.
      * unfold blob_links in *. simpl. by rewrite Hlen.
      * intros [|k] link Hk; simpl in Hk.
        -- injection Hk as ->. rewrite Nat.add_0_r. apply elem_of_cons. by left.
        -- apply elem_of_cons. right. replace (i + S k)%nat with (S i + k)%nat by lia.
           by apply Hmem.
    + split; [done|]. exists []. rewrite app_nil_r. split; [done|]. split; [done|].
      intros k link Hk. by rewrite lookup_nil in Hk.
Qed.

(** The whole loop: the first image alone can become the main image. *)
Lemma images_loop_from_start did images embed :
  image (result_embed (images_loop did 0 images embed)) =
    match images with
    | Blob link :: _ => Some (construct_image_url link did)
    | _ => image embed
    end ∧
  ∃ extra,
    fields (result_embed (images_loop did 0 images embed)) = fields embed ++ extra ∧
    length extra = length (blob_links (tail (before_broken images))) ∧
    ∀ k link, (1 ≤ k)%nat → before_broken images !! k = Some (Blob link) →
              additional_field did k link ∈ extra.
Proof.
  assert (∀ embed', image (result_embed (ImagesRaised embed')) = image embed' ∧
            ∃ extra, fields embed' = fields embed' ++ extra ∧
              length extra = length (blob_links (tail (@nil image_view))) ∧
              ∀ k link, (1 ≤ k)%nat → (@nil image_view) !! k = Some (Blob link) →
                        additional_field did k link ∈ extra) as Hnone.
  { intros embed'. split; [done|]. exists []. rewrite app_nil_r.
    split; [done|]. split; [done|]. intros k link _ Hk. by rewrite lookup_nil in Hk. }
  destruct images as [|img images]; [apply (Hnone embed)| ].
  destruct img as [|link0|]; [| |apply (Hnone embed)]; simpl.
  - destruct (images_loop_additional did 1 images embed)
      as (Himg & extra & Hfields & Hlen & Hmem); [lia|].
    split; [done|]. exists extra. split; [done|]. split; [done|].
    intros [|k] link Hk1 Hk; [lia|]. simpl in Hk.
    replace (S k) with (1 + k)%nat by lia. by apply Hmem.
  - destruct (images_loop_additional did 1 images
                (set_image (construct_image_url link0 did) embed))
      as (Himg & extra & Hfields & Hlen & Hmem); [lia|].
    split; [by rewrite Himg|]. exists extra. split; [done|]. split; [done|].
    intros [|k] link Hk1 Hk; [lia|]. simpl in Hk.
    replace (S k) with (1 + k)%nat by lia. by apply Hmem.
Qed.

Lemma process_images_embed post embed :
  (process_images post embed).1 =
    match embed_images post with
    | None => embed
    | Some images =>
        result_embed (images_loop (author_did (author post)) 0 images embed)
    end.
Proof.
  unfold process_images. destruct (embed_images post) as [images|]; [|done].
  by destruct (images_loop (author_did (author post)) 0 images embed).
Qed.

(** The fields of an embed: one inline field per image after the first
    that has a blob and comes before the first image on which
    [process_images] raises (its [except] clause drops that image and
    all later ones), named "Additional Image n" with n the position of
    the image in the post counted from 1 (images without [image] are
    counted too), followed last by the "View on BlueSky" link. *)
Theorem embed_fields_follow_images (post : FeedViewPost) (post_time : Z) :
  ∃ extra,
    fields (create_post_embed post post_time) =
      extra ++ [mk_field "View on BlueSky"
                         ("[Click here](" +:+ post_url_of post +:+ ")") false] ∧
    length extra =
      length (blob_links (tail (before_broken (default [] (embed_images post))))) ∧
    ∀ k link, (1 ≤ k)%nat →
              before_broken (default [] (embed_images post)) !! k = Some (Blob link) →
              additional_field (author_did (author post)) k link ∈ extra.
Proof.
  unfold create_post_embed, add_field. cbn [fields]. rewrite process_images_embed.
  destruct (embed_images post) as [images|]; simpl.
  - destruct (images_loop_from_start (author_did (author post)) images
        (mk_embed (text post) post_time (post_url_of post) (name_or_handle (author post))
           ("https://bsky.app/profile/" +:+ author_handle (author post)) None []))
      as (_ & extra & Hfields & Hlen & Hmem).
    exists extra. rewrite Hfields. simpl. done.
  - exists []. split; [done|]. split; [done|].
    intros k link _ Hk. by rewrite lookup_nil in Hk.
Qed.

(** The main image of an embed is the first image of the post when it
    has a blob; when the first image has none, or its blob makes
    [process_images] raise, or the post has no images, the embed has no
    main image, whatever the later images. *)
Theorem embed_image_is_first_image (post : FeedViewPost) (post_time : Z) :
  image (create_post_embed post post_time) =
    match embed_images post with
    | Some (Blob link :: _) => Some (construct_image_url link (author_did (author post)))
    | _ => None
    end.
Proof.
  unfold create_post_embed, add_field. cbn [image]. rewrite process_images_embed.
  destruct (embed_images post) as [images|]; simpl; [|done].
  destruct (images_loop_from_start (author_did (author post)) images
      (mk_embed (text post) post_time (post_url_of post) (name_or_handle (author post))
         ("https://bsky.app/profile/" +:+ author_handle (author post)) None []))
    as (-> & _).
  by destruct images as [|[|link|] images].
Qed.

Lemma last_split_slash base rkey :
  Str.has_slash rkey = false →
  last (Str.split_slash (base +:+ String Str.slash rkey)) = Some rkey.
Proof.
  intros Hrkey. rewrite split_slash_app, (split_slash_whole rkey) by done.
  apply last_snoc.
Qed.

(** The embed links to the post by the last segment of its URI: for a
    URI [<base>/<rkey>] with no slash in [rkey], the URL of the embed
    and the link of its last field are
    [https://bsky.app/profile/<handle>/post/<rkey>]. *)
Theorem embed_links_to_record_key (post : FeedViewPost) (post_time : Z)
    (base rkey : string) :
  uri (view_post post) = base +:+ "/" +:+ rkey →
  Str.has_slash rkey = false →
  url (create_post_embed post post_time) =
    "https://bsky.app/profile/" +:+ author_handle (author post) +:+ "/post/" +:+ rkey ∧
  last (fields (create_post_embed post post_time)) =
    Some (mk_field "View on BlueSky"
            ("[Click here](" +:+ ("https://bsky.app/profile/"
               +:+ author_handle (author post) +:+ "/post/" +:+ rkey) +:+ ")") false).
Proof.
  intros Huri Hrkey.
  assert (post_url_of post =
          "https://bsky.app/profile/" +:+ author_handle (author post) +:+ "/post/" +:+ rkey)
    as Hurl.
  { unfold post_url_of. rewrite Huri.
    change (base +:+ "/" +:+ rkey) with (base +:+ String Str.slash rkey).
    by rewrite last_split_slash. }
  split.
  - assert (∀ e, url (process_images post e).1 = url e) as Hkeep.
    { intros e. rewrite process_images_embed.
      destruct (embed_images post) as [images|]; [|done].
      generalize 0%nat. revert e. induction images as [|img images IH]; intros e i; [done|].
      destruct img as [|link|]; simpl; [apply IH| |done].
      rewrite IH. destruct (Nat.eqb i 0); reflexivity. }
    unfold create_post_embed, add_field. cbn [url]. rewrite Hkeep. exact Hurl.
  - unfold create_post_embed, add_field at 1. cbn [fields]. by rewrite last_snoc, Hurl.
Qed.

End embed.

Lemma embed_links_witness :
  url (create_post_embed
         (mk_view P1 (mk_author "alice.bsky.social" "did:plc:a" None) "hello" None) 0) =
    "https://bsky.app/profile/" +:+ "alice.bsky.social" +:+ "/post/" +:+ "1" ∧
  last (fields (create_post_embed
         (mk_view P1 (mk_author "alice.bsky.social" "did:plc:a" None) "hello" None) 0)) =
    Some (mk_field "View on BlueSky"
            ("[Click here](" +:+ ("https://bsky.app/profile/"
               +:+ "alice.bsky.social" +:+ "/post/" +:+ "1") +:+ ")") false).
Proof.
  apply (embed_links_to_record_key
           (mk_view P1 (mk_author "alice.bsky.social" "did:plc:a" None) "hello" None) 0
           "at://did:plc:a/app.bsky.feed.post" "1").
  - reflexivity.
  - reflexivity.
Defined.
